(** * Native audio references: detection and sandboxed loading

    A shallow embedding of [src/agents/pi-embedded-runner/run/audio.ts]:
    the reference detector ([detectAudioReferences]), the loader
    ([loadAudioFromRef]), the capability gate ([modelSupportsAudio]) and the
    batch orchestrator ([detectAndLoadPromptAudio]).

    Strings are sequences of 8-bit code units (the Latin-1 range of the
    UTF-16 code units a JavaScript string is made of).  Regular expressions
    are run by a backtracking matcher that follows the ECMAScript matching
    order (ordered alternation, greedy and lazy quantifiers, captures). *)

From Stdlib Require Import Ascii String ZArith Lia Bool DecimalString.
From stdpp Require Import base list strings gmap.

Local Open Scope string_scope.

(** ** JavaScript string primitives *)

Module Js.

Definition code (c : ascii) : nat := nat_of_ascii c.

Definition between (lo hi n : nat) : bool := (lo <=? n)%nat && (n <=? hi)%nat.

(** WhiteSpace and LineTerminator code points (what [\s] and [trim] use). *)
Definition isWhiteSpace (c : ascii) : bool :=
  let n := code c in between 9 13 n || (n =? 32)%nat || (n =? 160)%nat.

Definition isLineTerminator (c : ascii) : bool :=
  let n := code c in (n =? 10)%nat || (n =? 13)%nat.

Definition isDigit (c : ascii) : bool := between 48 57 (code c).

(** [String.prototype.toLowerCase], one code unit at a time. *)
Definition lowerChar (c : ascii) : ascii :=
  let n := code c in
  if between 65 90 n || (between 192 222 n && negb (n =? 215)%nat)
  then ascii_of_nat (n + 32) else c.

(** The [Canonicalize] operation of a case-insensitive regular expression
    (upper-casing, kept only when the result is a single code unit of the
    same range). *)
Definition canonChar (c : ascii) : ascii :=
  let n := code c in
  if between 97 122 n || (between 224 254 n && negb (n =? 247)%nat)
  then ascii_of_nat (n - 32) else c.

Fixpoint mapString (f : ascii -> ascii) (s : string) : string :=
  match s with
  | EmptyString => EmptyString
  | String c s' => String (f c) (mapString f s')
  end.

Definition toLowerCase (s : string) : string := mapString lowerChar s.

Fixpoint trimStart (s : string) : string :=
  match s with
  | String c s' => if isWhiteSpace c then trimStart s' else s
  | EmptyString => EmptyString
  end.

(** Drops the trailing white space: a character is kept when it is not
    white space or when something is kept after it. *)
Fixpoint trimEnd (s : string) : string :=
  match s with
  | EmptyString => EmptyString
  | String c s' =>
      match trimEnd s' with
      | EmptyString => if isWhiteSpace c then EmptyString else String c EmptyString
      | t => String c t
      end
  end.

Definition trim (s : string) : string := trimEnd (trimStart s).

Definition startsWith (s pre : string) : bool := String.prefix pre s.

(** Truthiness of a string: only the empty string is falsy. *)
Definition truthy (s : string) : bool :=
  match s with EmptyString => false | _ => true end.

(** [Array.prototype.includes] on an array of strings. *)
Definition includes (l : list string) (x : string) : bool :=
  existsb (String.eqb x) l.

End Js.

(** ** Regular expressions *)

Module Regex.

Inductive citem : Type :=
| CChr (c : ascii)                  (* a single character *)
| CSpace                            (* \s *)
| CDigit.                           (* \d *)

Inductive regex : Type :=
| REmpty
| RChr (c : ascii)
| RDot                              (* .  : anything but a line terminator *)
| RSet (neg : bool) (items : list citem)       (* [...] and [^...] *)
| RSeq (r1 r2 : regex)
| RAlt (r1 r2 : regex)
| RStar (greedy : bool) (r : regex)
| RGroup (n : nat) (r : regex)      (* capturing group number n *)
| RBol                              (* ^ *)
| REol.                             (* $ *)

Definition RPlus (greedy : bool) (r : regex) : regex := RSeq r (RStar greedy r).
Definition ROpt (r : regex) : regex := RAlt r REmpty.
Definition RSpace : regex := RSet false [CSpace].
Definition RDigit : regex := RSet false [CDigit].

Fixpoint RLit (s : string) : regex :=
  match s with
  | EmptyString => REmpty
  | String c EmptyString => RChr c
  | String c s' => RSeq (RChr c) (RLit s')
  end.

Fixpoint RAlts (l : list regex) : regex :=
  match l with
  | [] => REmpty
  | [r] => r
  | r :: l' => RAlt r (RAlts l')
  end.

(** Matcher state: the index reached, the input that is left, and the
    captures made so far. *)
Record mstate : Type := MState {
  ms_pos : nat;
  ms_rest : list ascii;
  ms_caps : list (nat * string)
}.

Definition charEq (ci : bool) (c x : ascii) : bool :=
  if ci then Ascii.eqb (Js.canonChar c) (Js.canonChar x) else Ascii.eqb c x.

Definition citemMatch (ci : bool) (x : ascii) (it : citem) : bool :=
  match it with
  | CChr c => charEq ci c x
  | CSpace => Js.isWhiteSpace x
  | CDigit => Js.isDigit x
  end.

Definition setMatch (ci neg : bool) (items : list citem) (x : ascii) : bool :=
  xorb neg (existsb (citemMatch ci x) items).

Definition step1 (p : ascii -> bool) (st : mstate)
    (k : mstate -> option mstate) : option mstate :=
  match ms_rest st with
  | x :: xs => if p x then k (MState (S (ms_pos st)) xs (ms_caps st)) else None
  | [] => None
  end.

Definition orElse (a b : option mstate) : option mstate :=
  match a with Some _ => a | None => b end.

Definition capture (n : nat) (st st' : mstate) : mstate :=
  MState (ms_pos st') (ms_rest st')
    ((n, string_of_list_ascii (take (ms_pos st' - ms_pos st) (ms_rest st)))
       :: ms_caps st').

(** The iterations of a quantified sub-expression [body]: one more
    iteration and then the rest, or the rest at once, in the order the
    quantifier asks for.  An iteration that consumed nothing is not
    continued, so at most one iteration per character left can succeed,
    which [fuel] counts. *)
Fixpoint starLoop (body : mstate -> (mstate -> option mstate) -> option mstate)
    (greedy : bool) (k : mstate -> option mstate) (fuel : nat) (st : mstate)
    {struct fuel} : option mstate :=
  match fuel with
  | O => k st
  | S fuel' =>
      let again :=
        body st (fun st' =>
          if (ms_pos st <? ms_pos st')%nat then starLoop body greedy k fuel' st'
          else None) in
      if greedy then orElse again (k st) else orElse (k st) again
  end.

(** Backtracking matcher in continuation-passing style: [k] is what is
    left to match after [r]; the first success in the order of the
    alternatives is the result. *)
Fixpoint rmatch (ci : bool) (r : regex) (st : mstate)
    (k : mstate -> option mstate) {struct r} : option mstate :=
  match r with
  | REmpty => k st
  | RChr c => step1 (charEq ci c) st k
  | RDot => step1 (fun x => negb (Js.isLineTerminator x)) st k
  | RSet neg items => step1 (setMatch ci neg items) st k
  | RSeq r1 r2 => rmatch ci r1 st (fun st' => rmatch ci r2 st' k)
  | RAlt r1 r2 => orElse (rmatch ci r1 st k) (rmatch ci r2 st k)
  | RStar greedy r' => starLoop (rmatch ci r') greedy k (length (ms_rest st)) st
  | RGroup n r' => rmatch ci r' st (fun st' => k (capture n st st'))
  | RBol => if (ms_pos st =? 0)%nat then k st else None
  | REol => match ms_rest st with [] => k st | _ => None end
  end.

(** The result of a successful match ([RegExpExecArray]). *)
Record rmatched : Type := RMatched {
  m_index : nat;
  m_end : nat;
  m_text : string;                   (* match[0] *)
  m_caps : list (nat * string)
}.

Definition group (n : nat) (m : rmatched) : option string :=
  snd <$> List.find (fun p => (fst p =? n)%nat) (m_caps m).

Definition matchAt (ci : bool) (r : regex) (pos : nat) (rest : list ascii)
    : option rmatched :=
  match rmatch ci r (MState pos rest []) Some with
  | Some st' =>
      Some (RMatched pos (ms_pos st')
              (string_of_list_ascii (take (ms_pos st' - pos) rest)) (ms_caps st'))
  | None => None
  end.

(** First match at or after the current index. *)
Fixpoint searchFrom (ci : bool) (r : regex) (pos : nat) (rest : list ascii)
    : option rmatched :=
  match matchAt ci r pos rest with
  | Some m => Some m
  | None =>
      match rest with
      | [] => None
      | _ :: rest' => searchFrom ci r (S pos) rest'
      end
  end.

(** [re.exec(s)] / [s.match(re)] / [re.test(s)] for a regex without the
    [g] flag. *)
Definition exec (ci : bool) (r : regex) (s : string) : option rmatched :=
  searchFrom ci r 0 (list_ascii_of_string s).

Definition test (ci : bool) (r : regex) (s : string) : bool :=
  match exec ci r s with Some _ => true | None => false end.

(** The matches that [while ((m = re.exec(s)) !== null)] visits for a
    regex with the [g] flag: each search starts at [lastIndex], the end of
    the previous match. *)
Fixpoint execLoop (fuel : nat) (ci : bool) (r : regex) (pos : nat)
    (rest : list ascii) : list rmatched :=
  match fuel with
  | O => []
  | S fuel' =>
      match searchFrom ci r pos rest with
      | None => []
      | Some m => m :: execLoop fuel' ci r (m_end m) (drop (m_end m - pos) rest)
      end
  end.

Definition execAll (ci : bool) (r : regex) (s : string) : list rmatched :=
  let l := list_ascii_of_string s in execLoop (S (length l)) ci r 0 l.

End Regex.

(** ** Node's [path] module (POSIX) *)

Module NodePath.

(** [path.isAbsolute]: a non-empty path that starts with a slash. *)
Definition isAbsolute (p : string) : bool :=
  match p with
  | String c _ => Ascii.eqb c "/"
  | EmptyString => false
  end.

(** The scan state of [path.extname]: it walks the path from its last
    character to its first. *)
Record extState : Type := ExtState {
  startDot : option nat;
  startPart : nat;
  endIdx : option nat;
  matchedSlash : bool;
  preDotState : Z;
  stopped : bool
}.

Definition extInit : extState := ExtState None 0 None true 0 false.

Definition extStep (i : nat) (c : ascii) (s : extState) : extState :=
  if stopped s then s
  else if Ascii.eqb c "/" then
    if matchedSlash s then s
    else ExtState (startDot s) (i + 1) (endIdx s) (matchedSlash s) (preDotState s) true
  else
    let s1 :=
      match endIdx s with
      | None => ExtState (startDot s) (startPart s) (Some (i + 1)) false (preDotState s) false
      | Some _ => s
      end in
    if Ascii.eqb c "." then
      match startDot s1 with
      | None => ExtState (Some i) (startPart s1) (endIdx s1) (matchedSlash s1) (preDotState s1) false
      | Some _ => ExtState (startDot s1) (startPart s1) (endIdx s1) (matchedSlash s1) 1 false
      end
    else
      match startDot s1 with
      | Some _ => ExtState (startDot s1) (startPart s1) (endIdx s1) (matchedSlash s1) (-1) false
      | None => s1
      end.

(** [extScan chars s] visits the characters from the last one down; the
    list is given first-to-last, so the tail is scanned first. *)
Fixpoint extScan (i : nat) (chars : list ascii) (s : extState) : extState :=
  match chars with
  | [] => s
  | c :: rest => extStep i c (extScan (S i) rest s)
  end.

Definition extname (p : string) : string :=
  let chars := list_ascii_of_string p in
  let s := extScan 0 chars extInit in
  match startDot s, endIdx s with
  | Some sd, Some e =>
      if (preDotState s =? 0)%Z
         || ((preDotState s =? 1)%Z && (sd =? e - 1)%nat && (sd =? startPart s + 1)%nat)
      then EmptyString
      else string_of_list_ascii (take (e - sd) (drop sd chars))
  | _, _ => EmptyString
  end.

End NodePath.

(** ** The audio module *)

Module Audio.

Import Regex.

(** *** Data model *)

Inductive RefType : Type := TPath | TUrl.

Record DetectedAudioRef : Type := MkRef {
  raw : string;
  type : RefType;
  resolved : string;
  messageIndex : option nat
}.

(** [AudioContent]; its [type] field is the constant "audio" and is left
    out. *)
Record AudioContent : Type := MkAudio {
  data : string;
  mimeType : string
}.

(** *** Extensions *)

Definition AUDIO_EXTENSIONS : gset string :=
  list_to_set [".mp3"; ".wav"; ".aac"; ".flac"; ".ogg"; ".opus"; ".m4a";
               ".mp4"; ".mpeg"; ".mpga"; ".webm"].

Definition isAudioExtension (filePath : string) : bool :=
  let ext := Js.toLowerCase (NodePath.extname filePath) in
  bool_decide (ext ∈ AUDIO_EXTENSIONS).

(** *** The regular expressions of the detector *)

Definition RSeqs (l : list regex) : regex := foldr RSeq REmpty l.

Definition dquote : ascii := "034"%char.
Definition squote : ascii := "'"%char.
Definition btick : ascii := "`"%char.

(** [(?:mp3|wav|aac|flac|ogg|opus|m4a|mp4|mpeg|mpga|webm)] *)
Definition extAlt : regex :=
  RAlts (RLit <$> ["mp3"; "wav"; "aac"; "flac"; "ogg"; "opus"; "m4a";
                   "mp4"; "mpeg"; "mpga"; "webm"]).

(** [/\[media attached(?:\s+\d+\/\d+)?:\s*([^\]]+)\]/gi] *)
Definition mediaAttachedPattern : regex :=
  RSeqs [ RLit "[media attached";
          ROpt (RSeqs [RPlus true RSpace; RPlus true RDigit; RChr "/"; RPlus true RDigit]);
          RChr ":";
          RStar true RSpace;
          RGroup 1 (RPlus true (RSet true [CChr "]"]));
          RChr "]" ].

(** [/^\d+\s+files?$/i] *)
Definition fileCountPattern : regex :=
  RSeqs [ RBol; RPlus true RDigit; RPlus true RSpace; RLit "file";
          ROpt (RChr "s"); REol ].

(** [/^\s*(.+?\.(?:mp3|...|webm))\s*(?:\(|$|\|)/i] *)
Definition markerPathPattern : regex :=
  RSeqs [ RBol;
          RStar true RSpace;
          RGroup 1 (RSeqs [RPlus false RDot; RChr "."; extAlt]);
          RStar true RSpace;
          RAlts [RChr "("; REol; RChr "|"] ].

(** [/file:\/\/[^\s<>\x22'`\]]+\.(?:mp3|...|webm)/gi], writing \x22 for the
    double quote. *)
Definition fileUrlPattern : regex :=
  RSeqs [ RLit "file://";
          RPlus true (RSet true [CSpace; CChr "<"; CChr ">"; CChr dquote;
                                 CChr squote; CChr btick; CChr "]"]);
          RChr ".";
          extAlt ].

(** [/(?:^|\s|[\x22'`(])((\.\.?\/|[~/])[^\s\x22'`()[\]]*\.(?:mp3|...|webm))/gi] *)
Definition pathPattern : regex :=
  RSeqs [ RAlts [RBol; RSpace; RSet false [CChr dquote; CChr squote; CChr btick; CChr "("]];
          RGroup 1
            (RSeqs [ RGroup 2 (RAlt (RSeqs [RChr "."; ROpt (RChr "."); RChr "/"])
                                    (RSet false [CChr "~"; CChr "/"]));
                     RStar true (RSet true [CSpace; CChr dquote; CChr squote; CChr btick;
                                            CChr "("; CChr ")"; CChr "["; CChr "]"]);
                     RChr ".";
                     extAlt ]) ].

(** *** The detector *)

(** The two locals of [detectAudioReferences] that its loops update. *)
Record DetectState : Type := MkDetect {
  refs : list DetectedAudioRef;
  seen : gset string
}.

Definition detectInit : DetectState := MkDetect [] ∅.

Section Detector.

(** [resolveUserPath] of [utils.js] (expansion of a leading home marker)
    and Node's [fileURLToPath] ([None] when it throws) are collaborators
    of the detector; it only passes strings through them. *)
Variable resolveUserPath : string -> string.
Variable fileURLToPath : string -> option string.

Definition isRemote (s : string) : bool :=
  Js.startsWith s "http://" || Js.startsWith s "https://".

Definition resolveAtDetection (trimmed : string) : string :=
  if Js.startsWith trimmed "~" then resolveUserPath trimmed else trimmed.

Definition addPathRef (rawArg : string) (st : DetectState) : DetectState :=
  let trimmed := Js.trim rawArg in
  if negb (Js.truthy trimmed) || bool_decide (Js.toLowerCase trimmed ∈ seen st) then st
  else if isRemote trimmed then st
  else if negb (isAudioExtension trimmed) then st
  else MkDetect
         (refs st ++ [MkRef trimmed TPath (resolveAtDetection trimmed) None])
         ({[Js.toLowerCase trimmed]} ∪ seen st).

(** Body of the first loop, for one match of [mediaAttachedPattern]. *)
Definition markerStep (st : DetectState) (m : rmatched) : DetectState :=
  match group 1 m with
  | None => st
  | Some content =>
      if test true fileCountPattern (Js.trim content) then st
      else
        match exec true markerPathPattern content with
        | Some pm =>
            match group 1 pm with
            | Some p => if Js.truthy p then addPathRef (Js.trim p) st else st
            | None => st
            end
        | None => st
        end
  end.

(** Body of the second loop, for one match of [fileUrlPattern]. *)
Definition fileUrlStep (st : DetectState) (m : rmatched) : DetectState :=
  let rawUrl := m_text m in
  if bool_decide (Js.toLowerCase rawUrl ∈ seen st) then st
  else
    let seen' := {[Js.toLowerCase rawUrl]} ∪ seen st in
    match fileURLToPath rawUrl with
    | Some res => MkDetect (refs st ++ [MkRef rawUrl TPath res None]) seen'
    | None => MkDetect (refs st) seen'
    end.

(** Body of the third loop, for one match of [pathPattern]. *)
Definition pathStep (st : DetectState) (m : rmatched) : DetectState :=
  match group 1 m with
  | Some p => if Js.truthy p then addPathRef p st else st
  | None => st
  end.

Definition scanMarkers (prompt : string) (st : DetectState) : DetectState :=
  foldl markerStep st (execAll true mediaAttachedPattern prompt).

Definition scanFileUrls (prompt : string) (st : DetectState) : DetectState :=
  foldl fileUrlStep st (execAll true fileUrlPattern prompt).

Definition scanPaths (prompt : string) (st : DetectState) : DetectState :=
  foldl pathStep st (execAll true pathPattern prompt).

Definition detectState (prompt : string) : DetectState :=
  scanPaths prompt (scanFileUrls prompt (scanMarkers prompt detectInit)).

Definition detectAudioReferences (prompt : string) : list DetectedAudioRef :=
  refs (detectState prompt).

End Detector.

(** A home directory and a [file://] conversion to run the detector on
    sample prompts: the conversion handles a URL with an empty host and
    a path of plain characters (no escapes, no dot segments, no query) and
    treats anything else as malformed. *)
Definition sampleResolveUserPath (p : string) : string :=
  match p with
  | String "~" rest => "/home/user" ++ rest
  | _ => p
  end.

Definition plainPathChar (c : ascii) : bool :=
  let n := Js.code c in
  Js.between 48 57 n || Js.between 65 90 n || Js.between 97 122 n
  || Ascii.eqb c "/" || Ascii.eqb c "." || Ascii.eqb c "_" || Ascii.eqb c "-".

Definition sampleFileURLToPath (u : string) : option string :=
  if Js.startsWith (Js.toLowerCase u) "file:///" then
    let p := string_of_list_ascii (drop 7 (list_ascii_of_string u)) in
    if forallb plainPathChar (list_ascii_of_string p) then Some p else None
  else None.

Definition sampleDetect : string -> list DetectedAudioRef :=
  detectAudioReferences sampleResolveUserPath sampleFileURLToPath.

End Audio.

(** ** Effects of the loader: exceptions, the outside world, and a trace *)

Module Io.

(** A thrown value, as far as the code looks at it:
    [err instanceof Error ? err.message : String(err)]. *)
Inductive Thrown : Type :=
| ErrorObject (message : string)
| OtherValue (asString : string).

Definition errText (e : Thrown) : string :=
  match e with
  | ErrorObject m => m
  | OtherValue s => s
  end.

Inductive Outcome (A : Type) : Type :=
| Normal (a : A)
| Throws (e : Thrown).
Arguments Normal {A} a.
Arguments Throws {A} e.

(** What [loadWebMedia] resolves to. *)
Record WebMedia : Type := MkMedia {
  kind : string;
  contentType : option string;
  buffer : list Byte.byte
}.

(** The calls that leave the module, in the order they are made. *)
Inductive Event : Type :=
| EvAssert (filePath cwd root : string)
| EvStat (p : string)
| EvLoad (p : string) (maxBytes : option Z)
| EvDebug (msg : string).

(** The collaborators of the loader.  [World] is whatever they read and
    change (the file system); each call may fail with a thrown value.
    [assertSandboxPath filePath cwd root] gives the [resolved] field of the
    object the primitive returns. *)
Record Env : Type := MkEnv {
  World : Type;
  resolveUserPath : string -> string;
  fileURLToPath : string -> option string;
  pathResolve : string -> string -> string;
  assertSandboxPath : string -> string -> string -> World -> Outcome string * World;
  fsStat : string -> World -> Outcome unit * World;
  loadWebMedia : string -> option Z -> World -> Outcome WebMedia * World
}.

Record IoState (E : Env) : Type := MkIo {
  world : World E;
  trace : list Event
}.
Arguments MkIo {E} world trace.
Arguments world {E} i.
Arguments trace {E} i.

Definition M (E : Env) (A : Type) : Type := IoState E -> Outcome A * IoState E.

Section Monad.
Context {E : Env}.

Definition ret {A} (a : A) : M E A := fun s => (Normal a, s).

Definition bind {A B} (m : M E A) (f : A -> M E B) : M E B :=
  fun s =>
    match m s with
    | (Normal a, s') => f a s'
    | (Throws e, s') => (Throws e, s')
    end.

(** [try { m } catch (err) { h err }] *)
Definition tryCatch {A} (m : M E A) (h : Thrown -> M E A) : M E A :=
  fun s =>
    match m s with
    | (Normal a, s') => (Normal a, s')
    | (Throws e, s') => h e s'
    end.

Definition emit (ev : Event) : M E unit :=
  fun s => (Normal tt, MkIo (world s) (trace s ++ [ev])).

(** An external call: the event is recorded, then the collaborator runs
    on the world. *)
Definition call {A} (ev : Event) (f : World E -> Outcome A * World E) : M E A :=
  fun s =>
    let '(r, w') := f (world s) in
    (r, MkIo w' (trace s ++ [ev])).

Definition debug (msg : string) : M E unit := emit (EvDebug msg).

End Monad.

Notation "'let!' x ':=' m 'in' k" := (bind m (fun x => k))
  (at level 10, x name, m at level 100, k at level 200).
Notation "m ';;;' k" := (bind m (fun _ => k))
  (at level 100, k at level 200, right associativity).

(** [Buffer.prototype.toString("base64")] *)
Definition b64Alphabet : list ascii :=
  list_ascii_of_string
    "ABCDEFGHIJKLMNOPQRSTUVWXYZabcdefghijklmnopqrstuvwxyz0123456789+/".

Definition b64 (n : nat) : ascii := nth n b64Alphabet "="%char.

Fixpoint base64Chars (l : list nat) : list ascii :=
  match l with
  | [] => []
  | [a] => [b64 (a / 4); b64 (a mod 4 * 16); "="%char; "="%char]
  | [a; b] => [b64 (a / 4); b64 (a mod 4 * 16 + b / 16); b64 (b mod 16 * 4); "="%char]
  | a :: b :: c :: rest =>
      b64 (a / 4) :: b64 (a mod 4 * 16 + b / 16)
        :: b64 (b mod 16 * 4 + c / 64) :: b64 (c mod 64) :: base64Chars rest
  end.

Definition toBase64 (buf : list Byte.byte) : string :=
  string_of_list_ascii (base64Chars (Byte.to_nat <$> buf)).

End Io.

Module Loader.

Import Audio Io.

Record LoadOptions : Type := MkOptions {
  maxBytes : option Z;
  sandboxRoot : option string
}.

(** [options?.maxBytes] and [options?.sandboxRoot] *)
Definition optMaxBytes (options : option LoadOptions) : option Z :=
  options ≫= maxBytes.
Definition optSandboxRoot (options : option LoadOptions) : option string :=
  options ≫= sandboxRoot.

(** Truthiness of an optional string: [undefined] and the empty string are
    falsy. *)
Definition truthyOpt (o : option string) : bool :=
  match o with Some s => Js.truthy s | None => false end.

Definition isPath (t : RefType) : bool :=
  match t with TPath => true | TUrl => false end.
Definition isUrl (t : RefType) : bool := negb (isPath t).

Definition typeName (t : RefType) : string :=
  match t with TPath => "path" | TUrl => "url" end.

Section WithEnv.
Context {E : Env}.

(** Lines 143-157: the sandbox check.  [Some p] is the validated working
    path, [None] is the [return null] of the inner catch. *)
Definition sandboxStep (ref : DetectedAudioRef) (options : option LoadOptions)
    (targetPath : string) : M E (option string) :=
  if isPath (type ref) && truthyOpt (optSandboxRoot options) then
    let root := default EmptyString (optSandboxRoot options) in
    tryCatch
      (let! validated := call (EvAssert targetPath root root)
                              (assertSandboxPath E targetPath root root) in
       ret (Some validated))
      (fun err =>
         debug ("Native audio: sandbox validation failed for " ++ resolved ref
                  ++ ": " ++ errText err) ;;;
         ret None)
  else ret (Some targetPath).

(** Lines 159-166: the existence probe.  [false] is the [return null] of
    the inner catch. *)
Definition statStep (ref : DetectedAudioRef) (targetPath : string) : M E bool :=
  if isPath (type ref) then
    tryCatch
      (call (EvStat targetPath) (fsStat E targetPath) ;;; ret true)
      (fun _ =>
         debug ("Native audio: file not found: " ++ targetPath) ;;;
         ret false)
  else ret true.

Definition isAudioOrVideo (k : string) : bool :=
  String.eqb k "audio" || String.eqb k "video".

Definition toContent (media : WebMedia) : AudioContent :=
  MkAudio (toBase64 (buffer media)) (default "audio/mp3" (contentType media)).

(** Lines 168-179. *)
Definition loadStep (options : option LoadOptions) (targetPath : string)
    : M E (option AudioContent) :=
  let! media := call (EvLoad targetPath (optMaxBytes options))
                     (loadWebMedia E targetPath (optMaxBytes options)) in
  if negb (isAudioOrVideo (kind media)) then
    debug ("Native audio: not an audio file: " ++ targetPath
             ++ " (got " ++ kind media ++ ")") ;;;
    ret None
  else ret (Some (toContent media)).

(** Lines 138-141. *)
Definition resolveTarget (ref : DetectedAudioRef) (workspaceDir : string)
    (options : option LoadOptions) : string :=
  if isPath (type ref) && negb (NodePath.isAbsolute (resolved ref)) then
    pathResolve E (default workspaceDir (optSandboxRoot options)) (resolved ref)
  else resolved ref.

(** The body of the outer [try]. *)
Definition loadBody (ref : DetectedAudioRef) (workspaceDir : string)
    (options : option LoadOptions) : M E (option AudioContent) :=
  if isUrl (type ref) then
    debug ("Native audio: rejecting remote URL (local-only): " ++ resolved ref) ;;;
    ret None
  else
    let! validated := sandboxStep ref options (resolveTarget ref workspaceDir options) in
    match validated with
    | None => ret None
    | Some targetPath =>
        let! found := statStep ref targetPath in
        if found then loadStep options targetPath else ret None
    end.

Definition loadAudioFromRef (ref : DetectedAudioRef) (workspaceDir : string)
    (options : option LoadOptions) : M E (option AudioContent) :=
  tryCatch (loadBody ref workspaceDir options)
    (fun err =>
       debug ("Native audio: failed to load " ++ resolved ref ++ ": " ++ errText err) ;;;
       ret None).

(** *** The orchestrator *)

Record Model : Type := MkModel { input : option (list string) }.

Definition modelSupportsAudio (model : Model) : bool :=
  match input model with
  | Some l => Js.includes l "audio" || Js.includes l "image"
  | None => false
  end.

(** The parameters of [detectAndLoadPromptAudio]; [historyMessages] is
    never read by the code and is left out. *)
Record Params : Type := MkParams {
  prompt : string;
  workspaceDir : string;
  model : Model;
  existingAudio : option (list AudioContent);
  paramMaxBytes : option Z;
  paramSandboxRoot : option string
}.

Record BatchResult : Type := MkResult {
  audio : list AudioContent;
  loadedCount : nat;
  skippedCount : nat
}.

Definition natToString (n : nat) : string :=
  DecimalString.NilZero.string_of_uint (Nat.to_uint n).

(** The [for ... of] loop of lines 238-250, with its three locals. *)
Fixpoint loadLoop (params : Params) (allRefs : list DetectedAudioRef)
    (acc : BatchResult) : M E BatchResult :=
  match allRefs with
  | [] => ret acc
  | ref :: rest =>
      let! loaded := loadAudioFromRef ref (workspaceDir params)
                       (Some (MkOptions (paramMaxBytes params) (paramSandboxRoot params))) in
      match loaded with
      | Some a =>
          debug ("Native audio: loaded " ++ typeName (type ref) ++ " " ++ resolved ref) ;;;
          loadLoop params rest
            (MkResult (audio acc ++ [a]) (S (loadedCount acc)) (skippedCount acc))
      | None =>
          loadLoop params rest
            (MkResult (audio acc) (loadedCount acc) (S (skippedCount acc)))
      end
  end.

Definition detectAndLoadPromptAudio (params : Params) : M E BatchResult :=
  if negb (modelSupportsAudio (model params)) then ret (MkResult [] 0 0)
  else
    let promptRefs :=
      detectAudioReferences (resolveUserPath E) (fileURLToPath E) (prompt params) in
    let allRefs := promptRefs in
    if (length allRefs =? 0)%nat then
      ret (MkResult (default [] (existingAudio params)) 0 0)
    else
      debug ("Native audio: detected " ++ natToString (length allRefs) ++ " audio refs") ;;;
      loadLoop params allRefs (MkResult (default [] (existingAudio params)) 0 0).

End WithEnv.

Arguments resolveTarget E ref workspaceDir options : clear implicits.

End Loader.

(** ** A small world to run the loader in *)

Module Sample.

Import Audio Io Loader.

(** A file either has media the byte loader can return, or makes the byte
    loader fail with the given message. *)
Inductive SampleFile : Type :=
| Readable (m : WebMedia)
| Unreadable (msg : string).

Definition SampleFs : Type := list (string * SampleFile).

Definition lookupFile (p : string) (fs : SampleFs) : option SampleFile :=
  snd <$> List.find (fun e => String.eqb (fst e) p) fs.

Definition sampleJoin (root rel : string) : string := root ++ "/" ++ rel.

Definition hasDotDot (p : string) : bool :=
  match String.index 0 "/../" p with Some _ => true | None => false end.

Definition sampleAssert (filePath cwd root : string) (fs : SampleFs)
    : Outcome string * SampleFs :=
  if Js.startsWith filePath (root ++ "/") && negb (hasDotDot filePath)
  then (Normal filePath, fs)
  else (Throws (ErrorObject "Path escapes sandbox root"), fs).

Definition sampleStat (p : string) (fs : SampleFs) : Outcome unit * SampleFs :=
  match lookupFile p fs with
  | Some _ => (Normal tt, fs)
  | None => (Throws (ErrorObject ("ENOENT: no such file or directory, stat " ++ p)), fs)
  end.

Definition sampleLoad (p : string) (cap : option Z) (fs : SampleFs)
    : Outcome WebMedia * SampleFs :=
  match lookupFile p fs with
  | Some (Readable m) => (Normal m, fs)
  | Some (Unreadable msg) => (Throws (ErrorObject msg), fs)
  | None => (Throws (ErrorObject ("ENOENT: no such file or directory, open " ++ p)), fs)
  end.

Definition sampleEnv : Env :=
  MkEnv SampleFs sampleResolveUserPath sampleFileURLToPath sampleJoin
        sampleAssert sampleStat sampleLoad.

Definition song : WebMedia :=
  MkMedia "audio" (Some "audio/mpeg") [Byte.x4d; Byte.x61; Byte.x6e].
Definition clip : WebMedia := MkMedia "video" None [Byte.x4d; Byte.x61].
Definition cover : WebMedia := MkMedia "image" (Some "image/png") [Byte.x4d].

Definition sampleFs : SampleFs :=
  [ ("/work/song.mp3", Readable song);
    ("/work/clip.mp4", Readable clip);
    ("/work/cover.mp3", Readable cover);
    ("/work/huge.wav", Unreadable "Cannot allocate memory");
    ("/etc/secret.mp3", Readable song) ].

Definition start : IoState sampleEnv := MkIo (sampleFs : World sampleEnv) [].

Definition pathRef (p : string) : DetectedAudioRef := MkRef p TPath p None.

Definition inSandbox (root : string) : option LoadOptions :=
  Some (MkOptions None (Some root)).

Definition multimodal : Model := MkModel (Some ["text"; "image"]).
Definition textOnly : Model := MkModel (Some ["text"]).

Definition remoteRef : DetectedAudioRef :=
  MkRef "https://example.org/a.mp3" TUrl "https://example.org/a.mp3" None.

Definition carried : list AudioContent := [MkAudio "AAAA" "audio/wav"].

Definition textOnlyParams : Params :=
  MkParams "play /work/song.mp3" "/work" textOnly (Some carried) None None.

Definition hugeParams : Params :=
  MkParams "transcribe /work/huge.wav" "/work" multimodal None None (Some "/work"%string).

Definition mixedParams : Params :=
  MkParams "play /work/song.mp3 and /work/huge.wav then ./clip.mp4 and /nope.ogg"
           "/work" multimodal (Some carried) None (Some "/work"%string).

Definition quietParams : Params :=
  MkParams "hello, how are you today?" "/work" multimodal (Some carried) None None.

End Sample.

(** ** Vocabulary of the statements *)

Module Spec.

Import Regex Audio Io Loader.
Local Open Scope list_scope.

(** *** The matcher *)

(** The least number of characters a match of [r] consumes. *)
Fixpoint minLen (r : regex) : nat :=
  match r with
  | REmpty | RBol | REol | RStar _ _ => 0
  | RChr _ | RDot | RSet _ _ => 1
  | RSeq r1 r2 => minLen r1 + minLen r2
  | RAlt r1 r2 => Nat.min (minLen r1) (minLen r2)
  | RGroup _ r' => minLen r'
  end.

(** [st'] is [st] moved forward by at least [n] characters of its input. *)
Definition Reach (n : nat) (st st' : mstate) : Prop :=
  ∃ m, (n ≤ m)%nat ∧ (m ≤ length (ms_rest st))%nat
       ∧ ms_pos st' = (ms_pos st + m)%nat
       ∧ ms_rest st' = drop m (ms_rest st).

Definition matcher : Type := mstate → (mstate → option mstate) → option mstate.

(** A success of the matcher is a success of its continuation, at a state
    at least [n] characters further. *)
Definition Sound (n : nat) (body : matcher) : Prop :=
  ∀ st k res, body st k = Some res → ∃ st', k st' = Some res ∧ Reach n st st'.

(** The matcher looks at its continuation only at states further in the
    same input. *)
Definition Local (body : matcher) : Prop :=
  ∀ st k k', (∀ st', Reach 0 st st' → k st' = k' st') → body st k = body st k'.

(** *** The detector *)

(** The de-duplication key of a reference. *)
Definition refKey (r : DetectedAudioRef) : string := Js.toLowerCase (raw r).


(** A step of a loop either leaves [refs] alone or pushes one reference
    that satisfies [P]. *)
Definition Pushes (P : DetectedAudioRef → Prop) (st st' : DetectState) : Prop :=
  ∃ l, refs st' = refs st ++ l ∧ Forall P l.

(** What [addPathRef] guarantees of a reference it pushes. *)
Definition ViaAddPathRef (resolveUserPath : string → string)
    (r : DetectedAudioRef) : Prop :=
  type r = TPath ∧
  raw r = Js.trim (raw r) ∧
  raw r ≠ EmptyString ∧
  isRemote (raw r) = false ∧
  isAudioExtension (raw r) = true ∧
  resolved r = (if Js.startsWith (raw r) "~" then resolveUserPath (raw r) else raw r).

(** What the [file://] loop guarantees of a reference it pushes. *)
Definition ViaFileUrl (fileURLToPath : string → option string)
    (r : DetectedAudioRef) : Prop :=
  type r = TPath ∧ fileURLToPath (raw r) = Some (resolved r).

(** *** The loader and the orchestrator *)


(** The arguments of the sandbox assertions made. *)
Definition assertCalls (evs : list Event) : list (string * string * string) :=
  omap (fun ev => match ev with
                  | EvAssert f c r => Some (f, c, r)
                  | _ => None
                  end) evs.

(** The lines the loader and the orchestrator log. *)
Definition rejectedLine (ref : DetectedAudioRef) (e : Thrown) : string :=
  "Native audio: sandbox validation failed for " +:+ resolved ref +:+ ": " +:+ errText e.

Definition notFoundLine (p : string) : string :=
  "Native audio: file not found: " +:+ p.

Definition notAudioLine (p k : string) : string :=
  "Native audio: not an audio file: " +:+ p +:+ " (got " +:+ k +:+ ")".

Definition remoteLine (ref : DetectedAudioRef) : string :=
  "Native audio: rejecting remote URL (local-only): " +:+ resolved ref.

Definition failedToLoad (ref : DetectedAudioRef) (e : Thrown) : string :=
  "Native audio: failed to load " +:+ resolved ref +:+ ": " +:+ errText e.

Definition loadedLine (ref : DetectedAudioRef) : string :=
  "Native audio: loaded " +:+ typeName (type ref) +:+ " " +:+ resolved ref.

Definition detectedLine (n : nat) : string :=
  "Native audio: detected " +:+ natToString n +:+ " audio refs".

(** The state after one more debug line, and after one more external call. *)
Definition logged {E : Env} (msg : string) (s : IoState E) : IoState E :=
  MkIo (world s) (trace s ++ [EvDebug msg]).

Definition after {E : Env} (ev : Event) (w : World E) (s : IoState E) : IoState E :=
  MkIo w (trace s ++ [ev]).

Definition detected (E : Env) (params : Params) : list DetectedAudioRef :=
  detectAudioReferences (resolveUserPath E) (fileURLToPath E) (prompt params).

Definition paramOptions (params : Params) : option LoadOptions :=
  Some (MkOptions (paramMaxBytes params) (paramSandboxRoot params)).

Section WithEnv.
Context {E : Env}.

(** How the references of a batch fare one after the other: the outcome of
    each load, and the state each load starts from. *)
Inductive LoadsInOrder (params : Params)
    : list DetectedAudioRef → IoState E → list (option AudioContent) → IoState E → Prop :=
| loads_done s : LoadsInOrder params [] s [] s
| loads_skipped ref rest s s1 os s2 :
    loadAudioFromRef ref (workspaceDir params) (paramOptions params) s = (Normal None, s1) →
    LoadsInOrder params rest s1 os s2 →
    LoadsInOrder params (ref :: rest) s (None :: os) s2
| loads_loaded ref rest s a s1 os s2 :
    loadAudioFromRef ref (workspaceDir params) (paramOptions params) s = (Normal (Some a), s1) →
    LoadsInOrder params rest (logged (loadedLine ref) s1) os s2 →
    LoadsInOrder params (ref :: rest) s (Some a :: os) s2.

End WithEnv.

(** The number of references that came back null. *)
Definition skipped (os : list (option AudioContent)) : nat :=
  length (filter (λ o, o = None) os).

End Spec.

(** ** More vocabulary: what a match looks like, call disciplines, decoding *)

Module Shape.

Import Regex Audio Io Loader Spec.
Local Open Scope list_scope.

(** *** Words a regular expression can match *)

(** A necessary condition on the characters a match of [r] consumes; the
    anchors consume nothing and their condition on the position is left
    out. *)
Fixpoint Den (ci : bool) (r : regex) (w : list ascii) : Prop :=
  match r with
  | REmpty | RBol | REol => w = []
  | RChr c => ∃ x, w = [x] ∧ charEq ci c x = true
  | RDot => ∃ x, w = [x] ∧ Js.isLineTerminator x = false
  | RSet neg items => ∃ x, w = [x] ∧ setMatch ci neg items x = true
  | RSeq r1 r2 => ∃ w1 w2, w = w1 ++ w2 ∧ Den ci r1 w1 ∧ Den ci r2 w2
  | RAlt r1 r2 => Den ci r1 w ∨ Den ci r2 w
  | RStar _ r' => ∃ ws, w = concat ws ∧ Forall (Den ci r') ws
  | RGroup _ r' => Den ci r' w
  end.

(** [st'] is [st] after the word [w]. *)
Definition Consumes (w : list ascii) (st st' : mstate) : Prop :=
  ms_rest st = w ++ ms_rest st' ∧ ms_pos st' = (ms_pos st + length w)%nat.

(** A success of the matcher is a success of its continuation after a
    word in [D]. *)
Definition Matches (D : list ascii → Prop) (body : matcher) : Prop :=
  ∀ st k res, body st k = Some res →
              ∃ w st', D w ∧ Consumes w st st' ∧ k st' = Some res.

(** *** Pieces of the input *)

(** [t] occurs in [l], in one piece. *)
Definition Infix (t l : list ascii) : Prop := ∃ pre post, l = pre ++ t ++ post.

(** [t] occurs verbatim in [s]. *)
Definition Substring (t s : string) : Prop :=
  Infix (list_ascii_of_string t) (list_ascii_of_string s).

(** The input left is an end of [input], and every capture made so far
    occurs in [input]. *)
Definition Within (input : list ascii) (st : mstate) : Prop :=
  ms_rest st `suffix_of` input
  ∧ Forall (λ nc, Infix (list_ascii_of_string nc.2) input) (ms_caps st).

(** The matcher hands to its continuation a state that is [Within] the
    input when it was given one. *)
Definition Keeps (input : list ascii) (body : matcher) : Prop :=
  ∀ st k res, body st k = Some res → Within input st →
              ∃ st', Within input st' ∧ k st' = Some res.

(** The text and the captures of a match occur in [s]. *)
Definition MatchWithin (s : string) (m : rmatched) : Prop :=
  Substring (m_text m) s ∧ Forall (λ nc, Substring nc.2 s) (m_caps m).

(** *** Characters and extensions *)

(** All the code units of the model. *)
Definition allAscii : list ascii := ascii_of_nat <$> seq 0 256.

(** The extensions of [AUDIO_EXTENSIONS] and of the three patterns,
    without the dot. *)
Definition extensionNames : list string :=
  ["mp3"; "wav"; "aac"; "flac"; "ogg"; "opus"; "m4a"; "mp4"; "mpeg"; "mpga"; "webm"].

(** [raw], lower-cased, ends with a dot and one of the extensions. *)
Definition EndsWithExtension (s : string) : Prop :=
  ∃ stem ext, ext ∈ extensionNames ∧ Js.toLowerCase s = stem +:+ "." +:+ ext.

(** The letters of [lit], each in either case. *)
Definition NoWhite (w : list ascii) : Prop := Forall (λ x, Js.isWhiteSpace x = false) w.

Definition SameLetters (lit : string) (w : list ascii) : Prop :=
  Forall2 (λ c x, charEq true c x = true) (list_ascii_of_string lit) w.

(** What the [file://] loop guarantees of the [raw] it pushes. *)
Definition UrlShaped (r : DetectedAudioRef) : Prop :=
  raw r ≠ EmptyString ∧ Js.trim (raw r) = raw r ∧ isRemote (raw r) = false
  ∧ EndsWithExtension (raw r).

(** *** The calls of the loader *)

(** The external calls among the events, in the order they were made:
    everything but the debug lines. *)
Definition calls (evs : list Event) : list Event :=
  omap (fun ev => match ev with
                  | EvDebug _ => None
                  | _ => Some ev
                  end) evs.

(** The existence probes and byte loads among the events, in order. *)
Definition ioCalls (evs : list Event) : list Event :=
  omap (fun ev => match ev with
                  | EvStat _ | EvLoad _ _ => Some ev
                  | _ => None
                  end) evs.

Definition statPaths (evs : list Event) : list string :=
  omap (fun ev => match ev with EvStat p => Some p | _ => None end) evs.

(** The byte caps handed to the byte loader. *)
Definition loadCaps (evs : list Event) : list (option Z) :=
  omap (fun ev => match ev with EvLoad _ c => Some c | _ => None end) evs.

(** The assertion that the loader makes for [ref], if it makes one. *)
Definition assertFor (E : Env) (ref : DetectedAudioRef) (ws : string)
    (opts : option LoadOptions) : list (string * string * string) :=
  if isPath (type ref) && truthyOpt (optSandboxRoot opts) then
    [(resolveTarget E ref ws opts,
      default EmptyString (optSandboxRoot opts),
      default EmptyString (optSandboxRoot opts))]
  else [].

(** *** Decoding the payload *)

Fixpoint indexOf (c : ascii) (l : list ascii) (i : nat) : option nat :=
  match l with
  | [] => None
  | x :: l' => if Ascii.eqb x c then Some i else indexOf c l' (S i)
  end.

(** The six bits a base64 character stands for. *)
Definition b64Index (c : ascii) : option nat := indexOf c b64Alphabet 0.

(** Base64 decoding, four characters at a time; padding is accepted in
    the last group only. *)
Fixpoint decodeChars (l : list ascii) : option (list nat) :=
  match l with
  | [] => Some []
  | c1 :: c2 :: c3 :: c4 :: rest =>
      if Ascii.eqb c4 "=" then
        match rest with
        | [] =>
            if Ascii.eqb c3 "=" then
              i1 ← b64Index c1; i2 ← b64Index c2;
              Some [i1 * 4 + i2 / 16]
            else
              i1 ← b64Index c1; i2 ← b64Index c2; i3 ← b64Index c3;
              Some [i1 * 4 + i2 / 16; i2 mod 16 * 16 + i3 / 4]
        | _ => None
        end
      else
        i1 ← b64Index c1; i2 ← b64Index c2; i3 ← b64Index c3; i4 ← b64Index c4;
        bytes ← decodeChars rest;
        Some (i1 * 4 + i2 / 16 :: i2 mod 16 * 16 + i3 / 4 :: i3 mod 4 * 64 + i4 :: bytes)
  | _ => None
  end.

Definition fromBase64 (s : string) : option (list Byte.byte) :=
  decodeChars (list_ascii_of_string s) ≫= mapM Byte.of_nat.

End Shape.

(** ** Properties of the matcher *)

Module RegexFacts.

Import Regex Spec.
Local Open Scope list_scope.
Local Open Scope nat_scope.

Lemma reach_refl st : Reach 0 st st.
Proof.
  exists 0. split; [lia|]. split; [lia|]. split; [lia|]. by rewrite drop_0.
Qed.

Lemma reach_trans a b st1 st2 st3 :
  Reach a st1 st2 → Reach b st2 st3 → Reach (a + b) st1 st3.
Proof.
  intros (m1 & Ha & Hl1 & Hp1 & Hr1) (m2 & Hb & Hl2 & Hp2 & Hr2).
  rewrite Hr1, length_drop in Hl2.
  exists (m1 + m2). repeat split; [lia|lia|lia|].
  by rewrite Hr2, Hr1, drop_drop.
Qed.

Lemma reach_weaken a b st st' : b ≤ a → Reach a st st' → Reach b st st'.
Proof. intros Hle (m & Ha & H). exists m. split; [lia|exact H]. Qed.

Lemma reach_capture n a st0 st st' : Reach a st st' → Reach a st (capture n st0 st').
Proof. intros (m & H). by exists m. Qed.

Lemma reach_length a st st' :
  Reach a st st' → length (ms_rest st') + (ms_pos st' - ms_pos st) = length (ms_rest st).
Proof. intros (m & _ & Hl & Hp & Hr). rewrite Hr, length_drop. lia. Qed.

Lemma orElse_Some a b res :
  orElse a b = Some res → a = Some res ∨ (a = None ∧ b = Some res).
Proof. destruct a; simpl; auto. Qed.

Lemma step1_sound p : Sound 1 (step1 p).
Proof.
  intros st k res. unfold step1.
  destruct (ms_rest st) as [|x xs] eqn:Hrest; [discriminate|].
  destruct (p x); [|discriminate]. intros Hk.
  eexists. split; [exact Hk|]. exists 1. cbn [ms_pos ms_rest].
  rewrite Hrest. cbn [length]. repeat split; lia.
Qed.

Lemma step1_local p : Local (step1 p).
Proof.
  intros st k k' Hk. unfold step1.
  destruct (ms_rest st) as [|x xs] eqn:Hrest; [reflexivity|].
  destruct (p x); [|reflexivity]. apply Hk.
  exists 1. cbn [ms_pos ms_rest]. rewrite Hrest. cbn [length]. repeat split; lia.
Qed.

Section Star.
Variable body : matcher.
Variable greedy : bool.
Hypothesis body_sound : Sound 0 body.
Hypothesis body_local : Local body.

Lemma starLoop_sound k fuel :
  ∀ st res, starLoop body greedy k fuel st = Some res →
            ∃ st', k st' = Some res ∧ Reach 0 st st'.
Proof.
  induction fuel as [|fuel IH]; intros st res; cbn [starLoop].
  - intros Hk. exists st. split; [exact Hk | apply reach_refl].
  - assert (Hagain : ∀ res',
      body st (λ st', if ms_pos st <? ms_pos st' then starLoop body greedy k fuel st'
                      else None) = Some res' →
      ∃ st', k st' = Some res' ∧ Reach 0 st st').
    { intros res' Hb. apply body_sound in Hb as (st1 & Hcont & Hreach).
      destruct (ms_pos st <? ms_pos st1); [|discriminate].
      apply IH in Hcont as (st2 & Hk & Hreach2).
      exists st2. split; [exact Hk|]. apply (reach_trans 0 0 st st1 st2); auto. }
    destruct greedy; intros Hres; apply orElse_Some in Hres as [Hres|[_ Hres]]; auto;
      exists st; (split; [exact Hres | apply reach_refl]).
Qed.

Lemma starLoop_local fuel :
  ∀ st k k', (∀ st', Reach 0 st st' → k st' = k' st') →
             starLoop body greedy k fuel st = starLoop body greedy k' fuel st.
Proof.
  induction fuel as [|fuel IH]; intros st k k' Hk; cbn [starLoop].
  - apply Hk, reach_refl.
  - rewrite (Hk st (reach_refl st)).
    replace (body st (λ st', if ms_pos st <? ms_pos st'
                             then starLoop body greedy k fuel st' else None))
      with (body st (λ st', if ms_pos st <? ms_pos st'
                            then starLoop body greedy k' fuel st' else None));
      [reflexivity|].
    apply body_local. intros st1 Hreach.
    destruct (ms_pos st <? ms_pos st1); [|reflexivity].
    symmetry. apply IH. intros st2 Hreach2.
    apply Hk. apply (reach_trans 0 0 st st1 st2); auto.
Qed.

Lemma body_none st : body st (λ _, None) = None.
Proof.
  destruct (body st (λ _, None)) as [res|] eqn:Hb; [|reflexivity].
  apply body_sound in Hb as (st' & Hk & _). discriminate.
Qed.

(** Fuel beyond the number of characters left changes nothing. *)
Lemma starLoop_fuel_step k fuel :
  ∀ st, length (ms_rest st) ≤ fuel →
        starLoop body greedy k (S fuel) st = starLoop body greedy k fuel st.
Proof.
  induction fuel as [|fuel IH]; intros st Hlen.
  - cbn [starLoop].
    replace (body st (λ st', if ms_pos st <? ms_pos st' then k st' else None))
      with (body st (λ _, None)).
    + rewrite body_none. by destruct greedy, (k st).
    + apply body_local. intros st1 Hreach.
      apply reach_length in Hreach.
      destruct (ms_pos st <? ms_pos st1) eqn:Hlt; [|reflexivity].
      apply Nat.ltb_lt in Hlt. lia.
  - change (starLoop body greedy k (S (S fuel)) st)
      with (let again :=
              body st (λ st', if ms_pos st <? ms_pos st'
                              then starLoop body greedy k (S fuel) st' else None) in
            if greedy then orElse again (k st) else orElse (k st) again).
    change (starLoop body greedy k (S fuel) st)
      with (let again :=
              body st (λ st', if ms_pos st <? ms_pos st'
                              then starLoop body greedy k fuel st' else None) in
            if greedy then orElse again (k st) else orElse (k st) again).
    cbv zeta.
    replace (body st (λ st', if ms_pos st <? ms_pos st'
                             then starLoop body greedy k (S fuel) st' else None))
      with (body st (λ st', if ms_pos st <? ms_pos st'
                            then starLoop body greedy k fuel st' else None));
      [reflexivity|].
    apply body_local. intros st1 Hreach.
    destruct (ms_pos st <? ms_pos st1) eqn:Hlt; [|reflexivity].
    apply Nat.ltb_lt in Hlt. apply reach_length in Hreach.
    symmetry. apply IH. lia.
Qed.

Lemma starLoop_fuel k extra st :
  starLoop body greedy k (length (ms_rest st) + extra) st
  = starLoop body greedy k (length (ms_rest st)) st.
Proof.
  induction extra as [|extra IH]; [by rewrite Nat.add_0_r|].
  rewrite Nat.add_succ_r, starLoop_fuel_step by lia. exact IH.
Qed.

End Star.

Lemma rmatch_sound_local ci r : Sound (minLen r) (rmatch ci r) ∧ Local (rmatch ci r).
Proof.
  induction r as [|c| |neg items|r1 [S1 L1] r2 [S2 L2]|r1 [S1 L1] r2 [S2 L2]
                 |g r [S1 L1]|n r [S1 L1]| |]; cbn [minLen].
  - split.
    + intros st k res Hk. exists st. split; [exact Hk | apply reach_refl].
    + intros st k k' Hk. apply Hk, reach_refl.
  - split; [apply step1_sound | apply step1_local].
  - split; [apply step1_sound | apply step1_local].
  - split; [apply step1_sound | apply step1_local].
  - split.
    + intros st k res Hm. cbn [rmatch] in Hm.
      apply S1 in Hm as (st1 & Hm & Hr1). apply S2 in Hm as (st2 & Hk & Hr2).
      exists st2. split; [exact Hk | by eapply reach_trans].
    + intros st k k' Hk. cbn [rmatch]. apply L1. intros st1 Hr1.
      apply L2. intros st2 Hr2. apply Hk. apply (reach_trans 0 0 st st1 st2); auto.
  - split.
    + intros st k res Hm. cbn [rmatch] in Hm.
      apply orElse_Some in Hm as [Hm|[_ Hm]].
      * apply S1 in Hm as (st1 & Hk & Hr). exists st1. split; [exact Hk|].
        eapply reach_weaken; [|exact Hr]. lia.
      * apply S2 in Hm as (st1 & Hk & Hr). exists st1. split; [exact Hk|].
        eapply reach_weaken; [|exact Hr]. lia.
    + intros st k k' Hk. cbn [rmatch]. by rewrite (L1 st k k' Hk), (L2 st k k' Hk).
  - assert (S0 : Sound 0 (rmatch ci r)).
    { intros st k res Hm. apply S1 in Hm as (st1 & Hk & Hr). exists st1.
      split; [exact Hk|]. eapply reach_weaken; [|exact Hr]. lia. }
    split.
    + intros st k res Hm. cbn [rmatch] in Hm. by eapply starLoop_sound.
    + intros st k k' Hk. cbn [rmatch]. by apply starLoop_local.
  - split.
    + intros st k res Hm. cbn [rmatch] in Hm.
      apply S1 in Hm as (st1 & Hk & Hr). exists (capture n st st1).
      split; [exact Hk | by apply reach_capture].
    + intros st k k' Hk. cbn [rmatch]. apply L1. intros st1 Hr.
      apply Hk. by apply reach_capture.
  - split.
    + intros st k res Hm. cbn [rmatch] in Hm.
      destruct (ms_pos st =? 0); [|discriminate].
      exists st. split; [exact Hm | apply reach_refl].
    + intros st k k' Hk. cbn [rmatch]. destruct (ms_pos st =? 0); [|reflexivity].
      apply Hk, reach_refl.
  - split.
    + intros st k res Hm. cbn [rmatch] in Hm.
      destruct (ms_rest st); [|discriminate].
      exists st. split; [exact Hm | apply reach_refl].
    + intros st k k' Hk. cbn [rmatch]. destruct (ms_rest st); [|reflexivity].
      apply Hk, reach_refl.
Qed.

Lemma rmatch_sound ci r : Sound (minLen r) (rmatch ci r).
Proof. apply rmatch_sound_local. Qed.

Lemma rmatch_local ci r : Local (rmatch ci r).
Proof. apply rmatch_sound_local. Qed.

(** The fuel that [rmatch] gives to a quantifier is enough: more of it
    gives the same result. *)
Lemma rmatch_star_fuel ci greedy r st k extra :
  starLoop (rmatch ci r) greedy k (length (ms_rest st) + extra) st
  = rmatch ci (RStar greedy r) st k.
Proof.
  cbn [rmatch]. apply starLoop_fuel.
  - intros st0 k0 res Hm. apply rmatch_sound in Hm as (st1 & Hk & Hr).
    exists st1. split; [exact Hk|]. eapply reach_weaken; [|exact Hr]. lia.
  - apply rmatch_local.
Qed.

Lemma matchAt_bounds ci r pos rest m :
  matchAt ci r pos rest = Some m →
  m_index m = pos ∧ pos + minLen r ≤ m_end m ∧ m_end m ≤ pos + length rest.
Proof.
  unfold matchAt.
  destruct (rmatch ci r (MState pos rest []) Some) as [st'|] eqn:Hm; [|discriminate].
  intros [= <-]. cbn [m_index m_end].
  apply rmatch_sound in Hm as (st1 & [= ->] & (n & Hmin & Hlen & Hpos & _)).
  cbn [ms_pos ms_rest] in *. lia.
Qed.

Lemma searchFrom_bounds ci r rest :
  ∀ pos m, searchFrom ci r pos rest = Some m →
           pos ≤ m_index m ∧ m_index m + minLen r ≤ m_end m
           ∧ m_end m ≤ pos + length rest.
Proof.
  induction rest as [|x rest IH]; intros pos m; cbn [searchFrom].
  - destruct (matchAt ci r pos []) as [m'|] eqn:Hm; [|discriminate].
    intros [= <-]. apply matchAt_bounds in Hm. lia.
  - destruct (matchAt ci r pos (x :: rest)) as [m'|] eqn:Hm.
    + intros [= <-]. apply matchAt_bounds in Hm. lia.
    + intros Hs. apply IH in Hs. cbn [length]. lia.
Qed.

(** For a regex that cannot match the empty string every match moves
    [lastIndex] forward, so the loop over the matches ends within the fuel
    [execAll] gives it: more fuel gives the same matches. *)
Lemma execLoop_fuel ci r :
  1 ≤ minLen r →
  ∀ fuel fuel' pos rest,
    length rest < fuel → length rest < fuel' →
    execLoop fuel ci r pos rest = execLoop fuel' ci r pos rest.
Proof.
  intros Hmin fuel. induction fuel as [|fuel IH]; intros fuel' pos rest Hf Hf'; [lia|].
  destruct fuel' as [|fuel']; [lia|]. cbn [execLoop].
  destruct (searchFrom ci r pos rest) as [m|] eqn:Hs; [|reflexivity].
  apply searchFrom_bounds in Hs. f_equal.
  apply IH; rewrite length_drop; lia.
Qed.

Lemma execAll_fuel ci r s extra :
  1 ≤ minLen r →
  execLoop (S (length (list_ascii_of_string s)) + extra) ci r 0 (list_ascii_of_string s)
  = execAll ci r s.
Proof. intros Hmin. unfold execAll. apply execLoop_fuel; [exact Hmin|lia|lia]. Qed.

(** None of the three global patterns of the detector can match the empty
    string. *)
Lemma detector_patterns_consume :
  minLen Audio.mediaAttachedPattern = 18
  ∧ minLen Audio.fileUrlPattern = 12
  ∧ minLen Audio.pathPattern = 5.
Proof. repeat split. Qed.

(** So the three scans of the detector visit all the matches. *)
Lemma detector_scans_complete (prompt : string) (extra : nat) :
  let l := list_ascii_of_string prompt in
  execLoop (S (length l) + extra) true Audio.mediaAttachedPattern 0 l
    = execAll true Audio.mediaAttachedPattern prompt
  ∧ execLoop (S (length l) + extra) true Audio.fileUrlPattern 0 l
    = execAll true Audio.fileUrlPattern prompt
  ∧ execLoop (S (length l) + extra) true Audio.pathPattern 0 l
    = execAll true Audio.pathPattern prompt.
Proof.
  intros l. repeat split; apply execAll_fuel; cbn; lia.
Qed.

End RegexFacts.
(** ** Properties of the detector *)

Module DetectorFacts.

Import Regex Audio Spec.
Local Open Scope list_scope.




Lemma pushes_refl P st : Pushes P st st.
Proof. exists []. split; [by rewrite app_nil_r | constructor]. Qed.

Lemma pushes_trans P st1 st2 st3 :
  Pushes P st1 st2 → Pushes P st2 st3 → Pushes P st1 st3.
Proof.
  intros (l1 & H1 & F1) (l2 & H2 & F2). exists (l1 ++ l2). split.
  - by rewrite H2, H1, app_assoc.
  - by apply Forall_app.
Qed.

Lemma pushes_weaken (P Q : DetectedAudioRef → Prop) st st' :
  (∀ r, P r → Q r) → Pushes P st st' → Pushes Q st st'.
Proof.
  intros HPQ (l & Hl & Fl). exists l. split; [exact Hl|].
  eapply Forall_impl; eauto.
Qed.


Section Folds.
Context {A : Type} (step : DetectState → A → DetectState).


Lemma foldl_pushes P :
  (∀ st m, Pushes P st (step st m)) →
  ∀ ms st, Pushes P st (foldl step st ms).
Proof.
  intros Hstep ms. induction ms as [|m ms IH]; intros st; simpl.
  - apply pushes_refl.
  - eapply pushes_trans; [apply Hstep | apply IH].
Qed.

End Folds.

Section Steps.
Variable resolveUserPath : string → string.
Variable fileURLToPath : string → option string.

Lemma trimEnd_idem s : Js.trimEnd (Js.trimEnd s) = Js.trimEnd s.
Proof.
  induction s as [|c s IH]; simpl; [reflexivity|].
  destruct (Js.trimEnd s) as [|c' t] eqn:Ht.
  - destruct (Js.isWhiteSpace c) eqn:Hc; simpl; [reflexivity|]. by rewrite Hc.
  - simpl in IH. simpl. destruct (Js.trimEnd t) as [|c'' t'] eqn:Ht'.
    + destruct (Js.isWhiteSpace c') eqn:Hc'; [discriminate|].
      by rewrite IH.
    + by rewrite IH.
Qed.

Lemma trimEnd_head c s :
  Js.isWhiteSpace c = false → ∃ t, Js.trimEnd (String c s) = String c t.
Proof.
  intros Hc. simpl. destruct (Js.trimEnd s); rewrite ?Hc; eauto.
Qed.

Lemma trimStart_trimEnd s : Js.trimStart (Js.trimEnd (Js.trimStart s)) = Js.trimEnd (Js.trimStart s).
Proof.
  induction s as [|c s IH]; simpl; [reflexivity|].
  destruct (Js.isWhiteSpace c) eqn:Hc; [exact IH|].
  destruct (trimEnd_head c s Hc) as [t Ht]. rewrite Ht. simpl. by rewrite Hc.
Qed.

Lemma trim_idem s : Js.trim (Js.trim s) = Js.trim s.
Proof. unfold Js.trim. by rewrite trimStart_trimEnd, trimEnd_idem. Qed.

Lemma truthy_nonempty s : Js.truthy s = true → s ≠ EmptyString.
Proof. by destruct s. Qed.

Lemma addPathRef_cases rawArg st :
  addPathRef resolveUserPath rawArg st = st ∨
  ∃ r, ViaAddPathRef resolveUserPath r ∧ raw r = Js.trim rawArg ∧ (refKey r ∉ seen st) ∧
       addPathRef resolveUserPath rawArg st
       = MkDetect (refs st ++ [r]) ({[refKey r]} ∪ seen st).
Proof.
  unfold addPathRef.
  destruct (Js.truthy (Js.trim rawArg)) eqn:Ht; simpl; [|by left].
  destruct (bool_decide (Js.toLowerCase (Js.trim rawArg) ∈ seen st)) eqn:Hs; [by left|].
  destruct (isRemote (Js.trim rawArg)) eqn:Hr; [by left|].
  destruct (isAudioExtension (Js.trim rawArg)) eqn:He; simpl; [|by left].
  right.
  exists (MkRef (Js.trim rawArg) TPath (resolveAtDetection resolveUserPath (Js.trim rawArg)) None).
  split; [|split; [reflexivity|split; [|reflexivity]]].
  - unfold ViaAddPathRef, resolveAtDetection; simpl.
    repeat split; auto using truthy_nonempty. by rewrite trim_idem.
  - unfold refKey; simpl. by apply bool_decide_eq_false in Hs.
Qed.

Lemma fileUrlStep_cases st m :
  fileUrlStep fileURLToPath st m = st ∨
  ((Js.toLowerCase (m_text m) ∉ seen st) ∧
   fileUrlStep fileURLToPath st m
   = MkDetect (refs st) ({[Js.toLowerCase (m_text m)]} ∪ seen st)) ∨
  ∃ r, ViaFileUrl fileURLToPath r ∧ raw r = m_text m ∧ (refKey r ∉ seen st) ∧
       fileUrlStep fileURLToPath st m
       = MkDetect (refs st ++ [r]) ({[refKey r]} ∪ seen st).
Proof.
  unfold fileUrlStep.
  destruct (bool_decide (Js.toLowerCase (m_text m) ∈ seen st)) eqn:Hs; [by left|].
  apply bool_decide_eq_false in Hs. right.
  destruct (fileURLToPath (m_text m)) as [res|] eqn:Hu.
  - right. exists (MkRef (m_text m) TPath res None). by repeat split.
  - left. by split.
Qed.

Lemma markerStep_cases st m :
  markerStep resolveUserPath st m = st ∨
  ∃ c, markerStep resolveUserPath st m = addPathRef resolveUserPath c st.
Proof.
  unfold markerStep.
  destruct (group 1 m) as [content|]; [|by left].
  destruct (test true fileCountPattern (Js.trim content)); [by left|].
  destruct (exec true markerPathPattern content) as [pm|]; [|by left].
  destruct (group 1 pm) as [p|]; [|by left].
  destruct (Js.truthy p); [|by left]. right. by eexists.
Qed.

Lemma pathStep_cases st m :
  pathStep resolveUserPath st m = st ∨
  ∃ c, pathStep resolveUserPath st m = addPathRef resolveUserPath c st.
Proof.
  unfold pathStep.
  destruct (group 1 m) as [p|]; [|by left].
  destruct (Js.truthy p); [|by left]. right. by eexists.
Qed.


Lemma addPathRef_pushes c st :
  Pushes (ViaAddPathRef resolveUserPath) st (addPathRef resolveUserPath c st).
Proof.
  destruct (addPathRef_cases c st) as [->|(r & Hr & _ & _ & ->)].
  - apply pushes_refl.
  - exists [r]. split; [reflexivity|]. by constructor.
Qed.


Lemma markerStep_pushes st m :
  Pushes (ViaAddPathRef resolveUserPath) st (markerStep resolveUserPath st m).
Proof.
  destruct (markerStep_cases st m) as [->|[c ->]];
    auto using pushes_refl, addPathRef_pushes.
Qed.


Lemma pathStep_pushes st m :
  Pushes (ViaAddPathRef resolveUserPath) st (pathStep resolveUserPath st m).
Proof.
  destruct (pathStep_cases st m) as [->|[c ->]];
    auto using pushes_refl, addPathRef_pushes.
Qed.


Lemma fileUrlStep_pushes st m :
  Pushes (ViaFileUrl fileURLToPath) st (fileUrlStep fileURLToPath st m).
Proof.
  destruct (fileUrlStep_cases st m) as [->|[[_ ->]|(r & Hr & _ & _ & ->)]].
  - apply pushes_refl.
  - exists []. split; [simpl; by rewrite app_nil_r | constructor].
  - exists [r]. split; [reflexivity|]. by constructor.
Qed.




Lemma scanMarkers_pushes prompt st :
  Pushes (ViaAddPathRef resolveUserPath) st (scanMarkers resolveUserPath prompt st).
Proof. apply foldl_pushes, markerStep_pushes. Qed.

Lemma scanFileUrls_pushes prompt st :
  Pushes (ViaFileUrl fileURLToPath) st (scanFileUrls fileURLToPath prompt st).
Proof. apply foldl_pushes, fileUrlStep_pushes. Qed.

Lemma scanPaths_pushes prompt st :
  Pushes (ViaAddPathRef resolveUserPath) st (scanPaths resolveUserPath prompt st).
Proof. apply foldl_pushes, pathStep_pushes. Qed.


(** A candidate whose key is already in [seen] changes nothing that is
    emitted, whichever loop meets it. *)
Lemma addPathRef_seen c st :
  Js.toLowerCase (Js.trim c) ∈ seen st → addPathRef resolveUserPath c st = st.
Proof.
  intros Hin. unfold addPathRef.
  rewrite (bool_decide_eq_true_2 _ Hin). by rewrite orb_true_r.
Qed.

Lemma fileUrlStep_seen st m :
  Js.toLowerCase (m_text m) ∈ seen st → fileUrlStep fileURLToPath st m = st.
Proof.
  intros Hin. unfold fileUrlStep. by rewrite (bool_decide_eq_true_2 _ Hin).
Qed.

End Steps.

End DetectorFacts.

(** ** What one detection pass guarantees *)

Module Detection.

Import Regex Audio Spec DetectorFacts.
Local Open Scope list_scope.






(** C8, on the code.  A [file://] URL whose last path component is a dot
    file named like an extension has no extension for [path.extname], so
    [isAudioExtension] rejects it; the marker loop and the bare-path loop
    drop such a candidate, the [file://] loop emits it. *)
Theorem file_url_skips_extension_gate :
  NodePath.extname "file:///a/.mp3" = EmptyString
  ∧ isAudioExtension "file:///a/.mp3" = false
  ∧ sampleDetect "file:///a/.mp3" = [MkRef "file:///a/.mp3" TPath "/a/.mp3" None]
  ∧ sampleDetect "listen to /a/.mp3" = []
  ∧ sampleDetect "[media attached: /a/.mp3 (audio/mpeg)]" = [].
Proof. vm_compute. repeat split; reflexivity. Qed.

(** The gate that the [file://] loop lacks is applied by the two other
    loops: every reference they push has passed [isAudioExtension] and is
    not an http(s) URL. *)
Lemma marker_and_path_refs_pass_extension_gate
    (resolveUserPath : string → string) (fileURLToPath : string → option string)
    (prompt : string) :
  let gated r := isAudioExtension (raw r) = true ∧ isRemote (raw r) = false in
  ∃ fromMarkers fromUrls fromPaths,
    detectAudioReferences resolveUserPath fileURLToPath prompt
      = fromMarkers ++ fromUrls ++ fromPaths
    ∧ Forall gated fromMarkers
    ∧ Forall (ViaFileUrl fileURLToPath) fromUrls
    ∧ Forall gated fromPaths.
Proof.
  intros gated.
  destruct (scanMarkers_pushes resolveUserPath prompt detectInit) as (lm & Hm & Fm).
  destruct (scanFileUrls_pushes fileURLToPath prompt
              (scanMarkers resolveUserPath prompt detectInit)) as (lu & Hu & Fu).
  destruct (scanPaths_pushes resolveUserPath prompt
              (scanFileUrls fileURLToPath prompt
                 (scanMarkers resolveUserPath prompt detectInit))) as (lp & Hp & Fp).
  simpl in Hm. exists lm, lu, lp.
  unfold detectAudioReferences, detectState.
  rewrite Hp, Hu, Hm. rewrite <- app_assoc.
  split; [reflexivity|]. split; [|split; [exact Fu|]].
  - eapply Forall_impl; [exact Fm|]. intros r Hr. split; apply Hr.
  - eapply Forall_impl; [exact Fp|]. intros r Hr. split; apply Hr.
Qed.

(** C9, as the code has it.  The references of one pass are those of the
    marker loop, then those of the [file://] loop, then those of the
    bare-path loop.  For the first and the last group [resolved] is the
    user-path expansion of [raw] when [raw] starts with a tilde and [raw]
    itself otherwise; for the middle group [resolved] is the file-system
    path that [fileURLToPath] makes of [raw]. *)
Theorem detect_resolved_by_origin :
  ∀ (resolveUserPath : string → string) (fileURLToPath : string → option string)
    (prompt : string),
    let viaPath r :=
      resolved r = (if Js.startsWith (raw r) "~" then resolveUserPath (raw r) else raw r) in
    let viaUrl r := fileURLToPath (raw r) = Some (resolved r) in
    ∃ fromMarkers fromUrls fromPaths,
      detectAudioReferences resolveUserPath fileURLToPath prompt
        = fromMarkers ++ fromUrls ++ fromPaths
      ∧ refs (scanMarkers resolveUserPath prompt detectInit) = fromMarkers
      ∧ refs (scanFileUrls fileURLToPath prompt
                (scanMarkers resolveUserPath prompt detectInit))
        = fromMarkers ++ fromUrls
      ∧ Forall viaPath fromMarkers
      ∧ Forall viaUrl fromUrls
      ∧ Forall viaPath fromPaths.
Proof.
  intros rup furl prompt viaPath viaUrl.
  destruct (scanMarkers_pushes rup prompt detectInit) as (lm & Hm & Fm).
  destruct (scanFileUrls_pushes furl prompt (scanMarkers rup prompt detectInit))
    as (lu & Hu & Fu).
  destruct (scanPaths_pushes rup prompt
              (scanFileUrls furl prompt (scanMarkers rup prompt detectInit)))
    as (lp & Hp & Fp).
  simpl in Hm. exists lm, lu, lp.
  unfold detectAudioReferences, detectState.
  rewrite Hp, Hu, Hm. rewrite <- app_assoc.
  repeat split; try reflexivity.
  - eapply Forall_impl; [exact Fm|]. intros r Hr. apply Hr.
  - eapply Forall_impl; [exact Fu|]. intros r Hr. apply Hr.
  - eapply Forall_impl; [exact Fp|]. intros r Hr. apply Hr.
Qed.

(** C9, as the spec words it, fails on a [file://] reference: its [raw]
    does not start with a tilde and its [resolved] is not its [raw]. *)
Lemma file_url_resolved_differs_from_raw :
  ∃ r, r ∈ sampleDetect "file:///tmp/a.wav"
       ∧ Js.startsWith (raw r) "~" = false
       ∧ raw r = "file:///tmp/a.wav"%string
       ∧ resolved r = "/tmp/a.wav"%string
       ∧ resolved r ≠ raw r.
Proof.
  exists (MkRef "file:///tmp/a.wav" TPath "/tmp/a.wav" None).
  split; [vm_compute; left|]. simpl. repeat split; discriminate.
Qed.

End Detection.

(** ** Properties of the loader and of the orchestrator *)

Module LoaderFacts.

Import Audio Io Loader Spec.
Local Open Scope list_scope.

Section WithEnv.
Context {E : Env}.

Lemma loads_length params refs (s s' : IoState E) os :
  LoadsInOrder params refs s os s' → length os = length refs.
Proof. induction 1; simpl; congruence. Qed.

(** The outer [try]/[catch] turns every outcome of the body into a normal
    return. *)
Lemma loader_returns ref ws opts (s : IoState E) :
  ∃ v s', loadAudioFromRef ref ws opts s = (Normal v, s').
Proof.
  unfold loadAudioFromRef, tryCatch.
  destruct (loadBody ref ws opts s) as [[v|e] s1]; [by eauto|].
  unfold bind, debug, emit, ret. simpl. eauto.
Qed.

Lemma loadStep_content opts p (s s' : IoState E) c :
  loadStep opts p s = (Normal (Some c), s') →
  ∃ media, isAudioOrVideo (kind media) = true ∧ c = toContent media.
Proof.
  unfold loadStep, bind, call, debug, emit, ret.
  destruct (loadWebMedia E p (optMaxBytes opts) (world s)) as [[media|e] w1]; [|discriminate].
  destruct (isAudioOrVideo (kind media)) eqn:Hk; simpl; [|discriminate].
  intros [= <- <-]. eauto.
Qed.

Lemma loader_content ref ws opts (s s' : IoState E) c :
  loadAudioFromRef ref ws opts s = (Normal (Some c), s') →
  ∃ media, isAudioOrVideo (kind media) = true ∧ c = toContent media.
Proof.
  unfold loadAudioFromRef, tryCatch.
  destruct (loadBody ref ws opts s) as [[v|e] s1] eqn:Hbody;
    [|unfold bind, debug, emit, ret; simpl; discriminate].
  intros [= -> ->]. revert Hbody. unfold loadBody.
  destruct (isUrl (type ref)); [unfold bind, debug, emit, ret; simpl; discriminate|].
  unfold bind at 1.
  destruct (sandboxStep ref opts (resolveTarget E ref ws opts) s) as [[[p|]|e] s1];
    [|unfold ret; discriminate|discriminate].
  unfold bind at 1.
  destruct (statStep ref p s1) as [[[|]|e] s2]; [|unfold ret; discriminate|discriminate].
  apply loadStep_content.
Qed.

Lemma omap_id_Some {A} (a : A) (os : list (option A)) :
  omap id (Some a :: os) = a :: omap id os.
Proof. reflexivity. Qed.

Lemma omap_id_None {A} (os : list (option A)) :
  omap id (@None A :: os) = omap id os.
Proof. reflexivity. Qed.

Lemma omap_id_length {A} (os : list (option A)) :
  (length (omap id os) ≤ length os)%nat.
Proof.
  induction os as [|[a|] os IH]; [reflexivity| |].
  - rewrite omap_id_Some. cbn [length]. lia.
  - rewrite omap_id_None. cbn [length]. lia.
Qed.

(** The loop adds one outcome per reference to its three locals. *)
Lemma loadLoop_spec params refs :
  ∀ acc (s : IoState E),
    ∃ os s',
      LoadsInOrder params refs s os s'
      ∧ loadLoop params refs acc s
        = (Normal (MkResult (audio acc ++ omap id os)
                            (loadedCount acc + length (omap id os))
                            (skippedCount acc + (length os - length (omap id os)))), s').
Proof.
  induction refs as [|ref rest IH]; intros acc s.
  - exists [], s. split; [constructor|]. cbn [loadLoop]. unfold ret.
    cbn [omap list_omap length]. rewrite app_nil_r, Nat.sub_diag, !Nat.add_0_r.
    by destruct acc.
  - cbn [loadLoop]. unfold bind at 1. fold (paramOptions params).
    destruct (loader_returns ref (workspaceDir params) (paramOptions params) s)
      as ([a|] & s1 & Hload); rewrite Hload.
    + unfold bind at 1, debug, emit.
      destruct (IH (MkResult (audio acc ++ [a]) (S (loadedCount acc)) (skippedCount acc))
                   (logged (loadedLine ref) s1)) as (os & s2 & Hos & Hrun).
      exists (Some a :: os), s2. split; [by eapply loads_loaded|].
      unfold logged, loadedLine in Hrun. rewrite Hrun.
      cbn [audio loadedCount skippedCount]. rewrite omap_id_Some.
      cbn [length]. rewrite <- app_assoc. cbn [app].
      f_equal. f_equal. f_equal; lia.
    + destruct (IH (MkResult (audio acc) (loadedCount acc) (S (skippedCount acc))) s1)
        as (os & s2 & Hos & Hrun).
      exists (None :: os), s2. split; [by eapply loads_skipped|].
      rewrite Hrun. cbn [audio loadedCount skippedCount]. rewrite omap_id_None.
      cbn [length]. pose proof (omap_id_length os).
      f_equal. f_equal. f_equal; lia.
Qed.

Lemma sandboxStep_checked ref opts target (s : IoState E) :
  type ref = TPath →
  truthyOpt (optSandboxRoot opts) = true →
  let root := default EmptyString (optSandboxRoot opts) in
  sandboxStep ref opts target s
  = match assertSandboxPath E target root root (world s) with
    | (Normal canonical, w1) =>
        (Normal (Some canonical), after (EvAssert target root root) w1 s)
    | (Throws e, w1) =>
        (Normal None, logged (rejectedLine ref e) (after (EvAssert target root root) w1 s))
    end.
Proof.
  intros Hty Htruthy root. unfold sandboxStep. rewrite Hty, Htruthy.
  cbn [isPath andb]. unfold tryCatch, bind, call, debug, emit, ret. fold root.
  by destruct (assertSandboxPath E target root root (world s)) as [[c|e] w1].
Qed.

Lemma sandboxStep_unchecked ref opts target (s : IoState E) :
  truthyOpt (optSandboxRoot opts) = false →
  sandboxStep ref opts target s = (Normal (Some target), s).
Proof.
  intros Hfalsy. unfold sandboxStep. rewrite Hfalsy. by rewrite andb_false_r.
Qed.

Lemma statStep_run ref p (s : IoState E) :
  type ref = TPath →
  statStep ref p s
  = match fsStat E p (world s) with
    | (Normal _, w1) => (Normal true, after (EvStat p) w1 s)
    | (Throws _, w1) => (Normal false, logged (notFoundLine p) (after (EvStat p) w1 s))
    end.
Proof.
  intros Hty. unfold statStep. rewrite Hty. cbn [isPath].
  unfold tryCatch, bind, call, debug, emit, ret.
  by destruct (fsStat E p (world s)) as [[u|e] w1].
Qed.

Lemma loadStep_run opts p (s : IoState E) :
  loadStep opts p s
  = match loadWebMedia E p (optMaxBytes opts) (world s) with
    | (Normal media, w1) =>
        if isAudioOrVideo (kind media)
        then (Normal (Some (toContent media)), after (EvLoad p (optMaxBytes opts)) w1 s)
        else (Normal None,
              logged (notAudioLine p (kind media)) (after (EvLoad p (optMaxBytes opts)) w1 s))
    | (Throws e, w1) => (Throws e, after (EvLoad p (optMaxBytes opts)) w1 s)
    end.
Proof.
  unfold loadStep, bind, call, debug, emit, ret.
  destruct (loadWebMedia E p (optMaxBytes opts) (world s)) as [[media|e] w1]; [|reflexivity].
  by destruct (isAudioOrVideo (kind media)).
Qed.

Lemma loader_url ref ws opts (s : IoState E) :
  type ref = TUrl →
  loadAudioFromRef ref ws opts s = (Normal None, logged (remoteLine ref) s).
Proof.
  intros Hty. unfold loadAudioFromRef, loadBody. rewrite Hty. reflexivity.
Qed.

Lemma loader_path ref ws opts (s : IoState E) :
  type ref = TPath →
  loadAudioFromRef ref ws opts s
  = match sandboxStep ref opts (resolveTarget E ref ws opts) s with
    | (Normal (Some p), s1) =>
        match statStep ref p s1 with
        | (Normal true, s2) =>
            match loadStep opts p s2 with
            | (Normal v, s3) => (Normal v, s3)
            | (Throws e, s3) => (Normal None, logged (failedToLoad ref e) s3)
            end
        | (Normal false, s2) => (Normal None, s2)
        | (Throws e, s2) => (Normal None, logged (failedToLoad ref e) s2)
        end
    | (Normal None, s1) => (Normal None, s1)
    | (Throws e, s1) => (Normal None, logged (failedToLoad ref e) s1)
    end.
Proof.
  intros Hty. unfold loadAudioFromRef, loadBody. rewrite Hty. cbn [isUrl isPath negb].
  unfold tryCatch, bind at 1.
  destruct (sandboxStep ref opts _ s) as [[[p|]|e] s1]; [|reflexivity|reflexivity].
  unfold bind at 1.
  destruct (statStep ref p s1) as [[[|]|e] s2]; [|reflexivity|reflexivity].
  by destruct (loadStep opts p s2) as [[v|e] s3].
Qed.

Lemma includes_elem_of (l : list string) (x : string) :
  Js.includes l x = true ↔ x ∈ l.
Proof.
  unfold Js.includes. rewrite existsb_exists. split.
  - intros (y & Hy & Heq). apply String.eqb_eq in Heq. subst y.
    by apply list_elem_of_In.
  - intros Hx. exists x. split; [by apply list_elem_of_In | apply String.eqb_refl].
Qed.

Lemma orchestrator_returns params (s : IoState E) :
  ∃ res s', detectAndLoadPromptAudio params s = (Normal res, s').
Proof.
  unfold detectAndLoadPromptAudio.
  destruct (modelSupportsAudio (model params)); simpl; [|unfold ret; eauto].
  destruct (length _ =? 0)%nat; [unfold ret; eauto|].
  unfold bind at 1, debug, emit. simpl.
  match goal with |- context [loadLoop ?p ?r ?a ?st] =>
    destruct (loadLoop_spec p r a st) as (os & s' & _ & ->) end.
  eauto.
Qed.

End WithEnv.

End LoaderFacts.

(** ** What the loader guarantees *)

Module Loading.

Import Audio Io Loader Spec LoaderFacts Sample.
Local Open Scope list_scope.





(** C2.  The loader never lets an exception out: every call returns, and
    what it returns is null or a content object made from media that the
    byte loader returned and classified as audio or video.  A reference of
    kind url, a rejection by the sandbox assertion, a failure of the
    existence probe, a failure of the byte loader and media of another kind
    each give null. *)
Theorem loader_never_throws :
  ∀ (E : Env) (ref : DetectedAudioRef) (ws : string) (opts : option LoadOptions)
    (s : IoState E),
    let target := resolveTarget E ref ws opts in
    let root := default EmptyString (optSandboxRoot opts) in
    let cap := optMaxBytes opts in
    let result := fst (loadAudioFromRef ref ws opts s) in
    (∃ v s', loadAudioFromRef ref ws opts s = (Normal v, s')
       ∧ (v = None
          ∨ ∃ media, isAudioOrVideo (kind media) = true ∧ v = Some (toContent media)))
    ∧ (type ref = TUrl → result = Normal None)
    ∧ (type ref = TPath → truthyOpt (optSandboxRoot opts) = true →
       ∀ e w1, assertSandboxPath E target root root (world s) = (Throws e, w1) →
       result = Normal None)
    ∧ (type ref = TPath →
       ∀ p s1 e w2,
         sandboxStep ref opts target s = (Normal (Some p), s1) →
         fsStat E p (world s1) = (Throws e, w2) →
         result = Normal None)
    ∧ (type ref = TPath →
       ∀ p s1 u w2 e w3,
         sandboxStep ref opts target s = (Normal (Some p), s1) →
         fsStat E p (world s1) = (Normal u, w2) →
         loadWebMedia E p cap w2 = (Throws e, w3) →
         result = Normal None)
    ∧ (type ref = TPath →
       ∀ p s1 u w2 media w3,
         sandboxStep ref opts target s = (Normal (Some p), s1) →
         fsStat E p (world s1) = (Normal u, w2) →
         loadWebMedia E p cap w2 = (Normal media, w3) →
         result = Normal (if isAudioOrVideo (kind media)
                          then Some (toContent media) else None)).
Proof.
  intros E ref ws opts s target root cap result. subst result.
  split; [|split; [|split; [|split; [|split]]]].
  - destruct (loader_returns ref ws opts s) as (v & s' & Hrun).
    exists v, s'. split; [exact Hrun|].
    destruct v as [c|]; [right|by left].
    destruct (loader_content ref ws opts s s' c Hrun) as (media & Hk & ->). eauto.
  - intros Hty. by rewrite (loader_url ref ws opts s Hty).
  - intros Hty Htruthy e w1 Ha.
    rewrite (loader_path ref ws opts s Hty).
    rewrite (sandboxStep_checked ref opts _ s Hty Htruthy).
    fold target root. by rewrite Ha.
  - intros Hty p s1 e w2 Hsb Hst.
    rewrite (loader_path ref ws opts s Hty). fold target. rewrite Hsb.
    rewrite (statStep_run ref p s1 Hty). by rewrite Hst.
  - intros Hty p s1 u w2 e w3 Hsb Hst Hld.
    rewrite (loader_path ref ws opts s Hty). fold target. rewrite Hsb.
    rewrite (statStep_run ref p s1 Hty), Hst. cbv beta iota.
    rewrite loadStep_run. cbn [world after]. fold cap. by rewrite Hld.
  - intros Hty p s1 u w2 media w3 Hsb Hst Hld.
    rewrite (loader_path ref ws opts s Hty). fold target. rewrite Hsb.
    rewrite (statStep_run ref p s1 Hty), Hst. cbv beta iota.
    rewrite loadStep_run. cbn [world after]. fold cap. rewrite Hld.
    by destruct (isAudioOrVideo (kind media)).
Qed.

(** C2 on the five failure modes, in the sample world. *)
Lemma loader_never_throws_witness :
  fst (loadAudioFromRef remoteRef "/work" None start) = Normal None
  ∧ fst (loadAudioFromRef (pathRef "/etc/secret.mp3") "/work" (inSandbox "/work") start)
    = Normal None
  ∧ fst (loadAudioFromRef (pathRef "/work/missing.mp3") "/work" (inSandbox "/work") start)
    = Normal None
  ∧ fst (loadAudioFromRef (pathRef "/work/huge.wav") "/work" (inSandbox "/work") start)
    = Normal None
  ∧ fst (loadAudioFromRef (pathRef "/work/cover.mp3") "/work" (inSandbox "/work") start)
    = Normal None.
Proof.
  split; [|split; [|split; [|split]]].
  - apply (proj1 (proj2 (loader_never_throws sampleEnv remoteRef "/work" None start))).
    reflexivity.
  - eapply (proj1 (proj2 (proj2 (loader_never_throws sampleEnv (pathRef "/etc/secret.mp3")
                                   "/work" (inSandbox "/work") start))));
      reflexivity.
  - eapply (proj1 (proj2 (proj2 (proj2 (loader_never_throws sampleEnv
                                   (pathRef "/work/missing.mp3")
                                   "/work" (inSandbox "/work") start)))));
      (reflexivity || (lazy; reflexivity)).
  - eapply (proj1 (proj2 (proj2 (proj2 (proj2 (loader_never_throws sampleEnv
                                   (pathRef "/work/huge.wav")
                                   "/work" (inSandbox "/work") start))))));
      (reflexivity || (lazy; reflexivity)).
  - exact (proj2 (proj2 (proj2 (proj2 (proj2 (loader_never_throws sampleEnv
                                   (pathRef "/work/cover.mp3")
                                   "/work" (inSandbox "/work") start)))))
             eq_refl "/work/cover.mp3"%string
             (@MkIo sampleEnv sampleFs [EvAssert "/work/cover.mp3" "/work" "/work"])
             tt sampleFs cover sampleFs eq_refl eq_refl eq_refl).
Defined.

(** C10.  When no sandbox root is given, no sandbox assertion is made: a
    reference of kind path whose target exists and is classified as audio
    or video is loaded and returned, the target being [resolved] itself when
    it is absolute and otherwise [resolved] resolved against the working
    directory; nothing compares the target with the working directory. *)
Theorem no_sandbox_root_no_containment :
  ∀ (E : Env) (ref : DetectedAudioRef) (ws : string) (opts : option LoadOptions)
    (s : IoState E) (u : unit) (w1 : World E) (media : WebMedia) (w2 : World E),
    type ref = TPath →
    optSandboxRoot opts = None →
    let target :=
      if NodePath.isAbsolute (resolved ref) then resolved ref
      else pathResolve E ws (resolved ref) in
    fsStat E target (world s) = (Normal u, w1) →
    loadWebMedia E target (optMaxBytes opts) w1 = (Normal media, w2) →
    isAudioOrVideo (kind media) = true →
    loadAudioFromRef ref ws opts s
    = (Normal (Some (toContent media)),
       MkIo w2 (trace s ++ [EvStat target; EvLoad target (optMaxBytes opts)])).
Proof.
  intros E ref ws opts s u w1 media w2 Hty Hroot target Hst Hld Hk.
  assert (Htarget : resolveTarget E ref ws opts = target).
  { unfold resolveTarget, target. rewrite Hty, Hroot. simpl.
    by destruct (NodePath.isAbsolute (resolved ref)). }
  rewrite (loader_path ref ws opts s Hty), Htarget.
  rewrite sandboxStep_unchecked by (by rewrite Hroot).
  rewrite (statStep_run ref target s Hty), Hst. cbv beta iota.
  rewrite loadStep_run. cbn [world after]. rewrite Hld, Hk.
  unfold after. cbn [trace]. by rewrite <- app_assoc.
Qed.

(** C10 on a file outside the working directory. *)
Lemma no_sandbox_root_no_containment_witness :
  (type (pathRef "/etc/secret.mp3") = TPath
   ∧ optSandboxRoot None = None
   ∧ isAudioOrVideo (kind song) = true)
  ∧ loadAudioFromRef (pathRef "/etc/secret.mp3") "/work" None start
    = (Normal (Some (toContent song)),
       MkIo (sampleFs : World sampleEnv)
            [EvStat "/etc/secret.mp3"; EvLoad "/etc/secret.mp3" None]).
Proof.
  split; [by repeat split|].
  apply (no_sandbox_root_no_containment sampleEnv (pathRef "/etc/secret.mp3") "/work"
           None start tt sampleFs song sampleFs); reflexivity.
Defined.

(** C6, as the code has it.  When the byte loader fails for a reference
    that passed resolution, the sandbox step and the existence probe, the
    outer catch of the loader logs the failure and returns null; the loop of
    the orchestrator counts the reference as skipped and goes on with the
    next one, and the orchestrator returns normally. *)
Theorem byte_load_error_becomes_skip :
  ∀ (E : Env) (ref : DetectedAudioRef) (ws : string) (opts : option LoadOptions)
    (s s1 : IoState E) (p : string) (u : unit) (w2 : World E) (e : Thrown) (w3 : World E),
    type ref = TPath →
    sandboxStep ref opts (resolveTarget E ref ws opts) s = (Normal (Some p), s1) →
    fsStat E p (world s1) = (Normal u, w2) →
    loadWebMedia E p (optMaxBytes opts) w2 = (Throws e, w3) →
    let s3 :=
      logged (failedToLoad ref e)
        (after (EvLoad p (optMaxBytes opts)) w3 (after (EvStat p) w2 s1)) in
    loadAudioFromRef ref ws opts s = (Normal None, s3)
    ∧ (∀ params rest acc,
         ws = workspaceDir params → opts = paramOptions params →
         loadLoop params (ref :: rest) acc s
         = loadLoop params rest
             (MkResult (audio acc) (loadedCount acc) (S (skippedCount acc))) s3)
    ∧ (∀ params (s0 : IoState E),
         ∃ res s', detectAndLoadPromptAudio params s0 = (Normal res, s')).
Proof.
  intros E ref ws opts s s1 p u w2 e w3 Hty Hsb Hst Hld s3.
  assert (Hrun : loadAudioFromRef ref ws opts s = (Normal None, s3)).
  { rewrite (loader_path ref ws opts s Hty), Hsb.
    rewrite (statStep_run ref p s1 Hty), Hst. cbv beta iota.
    rewrite loadStep_run. cbn [world after]. by rewrite Hld. }
  split; [exact Hrun|]. split.
  - intros params rest acc -> ->. cbn [loadLoop]. unfold bind at 1.
    fold (paramOptions params). by rewrite Hrun.
  - intros params s0. apply orchestrator_returns.
Qed.

(** C6 on a file the byte loader cannot read. *)
Lemma byte_load_error_becomes_skip_witness :
  loadWebMedia sampleEnv "/work/huge.wav" None sampleFs
    = (Throws (ErrorObject "Cannot allocate memory"), sampleFs)
  ∧ fst (loadAudioFromRef (pathRef "/work/huge.wav") "/work" (inSandbox "/work") start)
    = Normal None.
Proof.
  split; [reflexivity|].
  refine (f_equal fst (proj1 (byte_load_error_becomes_skip sampleEnv
            (pathRef "/work/huge.wav") "/work" (inSandbox "/work") start
            (@MkIo sampleEnv sampleFs [EvAssert "/work/huge.wav" "/work" "/work"])
            "/work/huge.wav" tt sampleFs (ErrorObject "Cannot allocate memory") sampleFs
            eq_refl eq_refl eq_refl eq_refl))).
Defined.

(** C6, as the spec words it, fails: the error of the byte loader does not
    reach the caller of the loader nor the caller of the orchestrator; both
    return normally and the reference is counted as skipped. *)
Lemma byte_load_error_does_not_propagate :
  loadWebMedia sampleEnv "/work/huge.wav" None sampleFs
    = (Throws (ErrorObject "Cannot allocate memory"), sampleFs)
  ∧ (∃ s', loadAudioFromRef (pathRef "/work/huge.wav") "/work" (inSandbox "/work") start
           = (Normal None, s')
           ∧ trace s' = [EvAssert "/work/huge.wav" "/work" "/work";
                         EvStat "/work/huge.wav";
                         EvLoad "/work/huge.wav" None;
                         EvDebug "Native audio: failed to load /work/huge.wav: Cannot allocate memory"])
  ∧ fst (detectAndLoadPromptAudio hugeParams start) = Normal (MkResult [] 0 1).
Proof.
  split; [reflexivity|]. split; [eexists; by vm_compute|]. by vm_compute.
Qed.

End Loading.

(** ** What the orchestrator guarantees *)

Module Orchestration.

Import Audio Io Loader Spec LoaderFacts Sample.
Local Open Scope list_scope.

Lemma skipped_loaded (os : list (option AudioContent)) :
  (length (omap id os) + skipped os = length os)%nat.
Proof.
  unfold skipped. induction os as [|[a|] os IH]; [reflexivity| |].
  - rewrite omap_id_Some, filter_cons_False by discriminate. cbn [length]. lia.
  - rewrite omap_id_None, filter_cons_True by reflexivity. cbn [length]. lia.
Qed.

(** C4.  [modelSupportsAudio] is true exactly when the input list of the
    model is present and holds "audio" or "image"; when it is false the
    orchestrator returns no audio and zero counts, whatever the prompt and
    the carried audio are, and touches nothing. *)
Theorem capability_gate :
  (∀ m : Model,
     modelSupportsAudio m = true
     ↔ ∃ l, input m = Some l ∧ ("audio"%string ∈ l ∨ "image"%string ∈ l))
  ∧ (∀ m : Model, input m = None → modelSupportsAudio m = false)
  ∧ (∀ (E : Env) (params : Params) (s : IoState E),
       modelSupportsAudio (model params) = false →
       detectAndLoadPromptAudio params s = (Normal (MkResult [] 0 0), s)).
Proof.
  split; [|split].
  - intros [[l|]]; unfold modelSupportsAudio; cbn [input].
    + rewrite orb_true_iff, !includes_elem_of. split.
      * intros H. by exists l.
      * by intros (l' & [= <-] & H).
    + split; [discriminate|]. by intros (l' & [=] & _).
  - intros m Hm. unfold modelSupportsAudio. by rewrite Hm.
  - intros E params s Hgate. unfold detectAndLoadPromptAudio. by rewrite Hgate.
Qed.

(** C4 on a text-only model, a prompt with a loadable reference and some
    carried audio. *)
Lemma capability_gate_witness :
  modelSupportsAudio (model textOnlyParams) = false
  ∧ length (detected sampleEnv textOnlyParams) = 1
  ∧ detectAndLoadPromptAudio textOnlyParams start = (Normal (MkResult [] 0 0), start).
Proof.
  split; [reflexivity|]. split; [by vm_compute|].
  apply (proj2 (proj2 capability_gate) sampleEnv textOnlyParams start). reflexivity.
Defined.

(** C5.  For a qualifying model and a prompt with at least one detected
    reference, the orchestrator returns; the references are loaded one
    after the other in detection order; each of them adds one to
    [loadedCount] (a content object came back) or one to [skippedCount]
    (null came back), so the two counts add up to the number of detected
    references; and the audio list is the carried audio followed by the
    loaded content objects in detection order. *)
Theorem batch_counts_and_order :
  ∀ (E : Env) (params : Params) (s : IoState E),
    modelSupportsAudio (model params) = true →
    detected E params ≠ [] →
    ∃ res s' outcomes,
      detectAndLoadPromptAudio params s = (Normal res, s')
      ∧ LoadsInOrder params (detected E params)
          (logged (detectedLine (length (detected E params))) s) outcomes s'
      ∧ audio res = default [] (existingAudio params) ++ omap id outcomes
      ∧ loadedCount res = length (omap id outcomes)
      ∧ skippedCount res = skipped outcomes
      ∧ (loadedCount res + skippedCount res = length (detected E params))%nat.
Proof.
  intros E params s Hgate Hsome.
  unfold detectAndLoadPromptAudio. rewrite Hgate. cbn [negb].
  fold (detected E params).
  destruct (detected E params) as [|ref rest] eqn:Hdet; [done|].
  cbn [length Nat.eqb]. unfold bind at 1, debug, emit.
  match goal with |- context [loadLoop ?p ?r ?a ?st] =>
    destruct (loadLoop_spec p r a st) as (os & s' & Hos & Hrun) end.
  eexists _, s', os. split; [exact Hrun|]. cbn [audio loadedCount skippedCount].
  pose proof (skipped_loaded os) as Hcount.
  pose proof (loads_length _ _ _ _ _ Hos) as Hlen.
  split; [exact Hos|]. split; [reflexivity|].
  cbn [length] in *. repeat split; lia.
Qed.

(** C5 on a prompt with four references, two of which load. *)
Lemma batch_counts_and_order_witness :
  (modelSupportsAudio (model mixedParams) = true
   ∧ length (detected sampleEnv mixedParams) = 4)
  ∧ ∃ res s' outcomes,
      detectAndLoadPromptAudio mixedParams start = (Normal res, s')
      ∧ LoadsInOrder mixedParams (detected sampleEnv mixedParams)
          (logged (detectedLine (length (detected sampleEnv mixedParams))) start)
          outcomes s'
      ∧ audio res = default [] (existingAudio mixedParams) ++ omap id outcomes
      ∧ loadedCount res = length (omap id outcomes)
      ∧ skippedCount res = skipped outcomes
      ∧ (loadedCount res + skippedCount res = length (detected sampleEnv mixedParams))%nat.
Proof.
  split; [split; by vm_compute|].
  apply (batch_counts_and_order sampleEnv mixedParams start); [reflexivity|].
  by vm_compute.
Defined.

(** C7.  For a qualifying model and a prompt in which nothing is detected,
    the orchestrator returns the carried audio as it is (the empty list when
    none is carried) with zero counts, and the loader is not called: the
    world and the trace are what they were. *)
Theorem no_reference_no_loading :
  ∀ (E : Env) (params : Params) (s : IoState E),
    modelSupportsAudio (model params) = true →
    detected E params = [] →
    detectAndLoadPromptAudio params s
    = (Normal (MkResult (default [] (existingAudio params)) 0 0), s)
    ∧ (∀ carriedAudio, existingAudio params = Some carriedAudio →
         fst (detectAndLoadPromptAudio params s) = Normal (MkResult carriedAudio 0 0))
    ∧ (existingAudio params = None →
         fst (detectAndLoadPromptAudio params s) = Normal (MkResult [] 0 0)).
Proof.
  intros E params s Hgate Hnone.
  assert (Hrun : detectAndLoadPromptAudio params s
                 = (Normal (MkResult (default [] (existingAudio params)) 0 0), s)).
  { unfold detectAndLoadPromptAudio. rewrite Hgate. cbn [negb].
    fold (detected E params). by rewrite Hnone. }
  split; [exact Hrun|]. rewrite Hrun. split.
  - by intros carriedAudio ->.
  - by intros ->.
Qed.

(** C7 on a prompt without references and with carried audio. *)
Lemma no_reference_no_loading_witness :
  (modelSupportsAudio (model quietParams) = true ∧ detected sampleEnv quietParams = [])
  ∧ detectAndLoadPromptAudio quietParams start = (Normal (MkResult carried 0 0), start).
Proof.
  split; [split; by vm_compute|].
  apply (proj1 (no_reference_no_loading sampleEnv quietParams start eq_refl
                  ltac:(by vm_compute))).
Defined.

End Orchestration.

(** ** The words the matcher accepts *)

Module ShapeFacts.

Import Regex Audio Spec Shape RegexFacts.
Local Open Scope list_scope.

Lemma consumes_nil st : Consumes [] st st.
Proof. split; [reflexivity | simpl; lia]. Qed.

Lemma consumes_app w1 w2 st1 st2 st3 :
  Consumes w1 st1 st2 → Consumes w2 st2 st3 → Consumes (w1 ++ w2) st1 st3.
Proof.
  intros [Hr1 Hp1] [Hr2 Hp2]. split.
  - by rewrite Hr1, Hr2, app_assoc.
  - rewrite Hp2, Hp1, length_app. lia.
Qed.

Lemma consumes_capture n w st0 st st' :
  Consumes w st st' → Consumes w st (capture n st0 st').
Proof. by intros [Hr Hp]. Qed.

Lemma step1_matches p : Matches (λ w, ∃ x, w = [x] ∧ p x = true) (step1 p).
Proof.
  intros st k res. unfold step1.
  destruct (ms_rest st) as [|x xs] eqn:Hrest; [discriminate|].
  destruct (p x) eqn:Hp; [|discriminate]. intros Hk.
  exists [x]. eexists. split; [by exists x|]. split; [|exact Hk].
  split; cbn [ms_rest ms_pos length]; [exact Hrest | lia].
Qed.

Lemma starLoop_matches body greedy D k :
  Matches D body →
  ∀ fuel st res,
    starLoop body greedy k fuel st = Some res →
    ∃ w st', (∃ ws, w = concat ws ∧ Forall D ws) ∧ Consumes w st st' ∧ k st' = Some res.
Proof.
  intros Hbody fuel. induction fuel as [|fuel IH]; intros st res; cbn [starLoop].
  - intros Hk. exists [], st. split; [by exists []|]. split; [apply consumes_nil|exact Hk].
  - assert (Hstop : k st = Some res →
      ∃ w st', (∃ ws, w = concat ws ∧ Forall D ws) ∧ Consumes w st st' ∧ k st' = Some res).
    { intros Hk. exists [], st. split; [by exists []|].
      split; [apply consumes_nil|exact Hk]. }
    assert (Hagain :
      body st (λ st', if (ms_pos st <? ms_pos st')%nat
                      then starLoop body greedy k fuel st' else None) = Some res →
      ∃ w st', (∃ ws, w = concat ws ∧ Forall D ws) ∧ Consumes w st st' ∧ k st' = Some res).
    { intros Hb. apply Hbody in Hb as (w1 & st1 & Hw1 & Hc1 & Hcont).
      destruct (ms_pos st <? ms_pos st1)%nat; [|discriminate].
      apply IH in Hcont as (w2 & st2 & (ws & -> & Hws) & Hc2 & Hk).
      exists (w1 ++ concat ws), st2. split; [|split; [by eapply consumes_app | exact Hk]].
      exists (w1 :: ws). split; [reflexivity | by constructor]. }
    destruct greedy; intros Hres; apply orElse_Some in Hres as [Hres|[_ Hres]]; auto.
Qed.

(** Soundness of the matcher for the words of [Den]. *)
Lemma rmatch_matches ci r : Matches (Den ci r) (rmatch ci r).
Proof.
  induction r as [|c| |neg items|r1 IH1 r2 IH2|r1 IH1 r2 IH2|g r IH|n r IH| |];
    intros st k res; cbn [rmatch Den].
  - intros Hk. exists [], st. split; [reflexivity|]. split; [apply consumes_nil|exact Hk].
  - apply step1_matches.
  - intros Hm. apply step1_matches in Hm as (w & st' & (x & -> & Hx) & Hc & Hk).
    exists [x], st'. split; [exists x; split; [reflexivity|]|by split].
    by apply negb_true_iff.
  - apply step1_matches.
  - intros Hm. apply IH1 in Hm as (w1 & st1 & Hw1 & Hc1 & Hm).
    apply IH2 in Hm as (w2 & st2 & Hw2 & Hc2 & Hk).
    exists (w1 ++ w2), st2. split; [by exists w1, w2|].
    split; [by eapply consumes_app | exact Hk].
  - intros Hm. apply orElse_Some in Hm as [Hm|[_ Hm]].
    + apply IH1 in Hm as (w & st' & Hw & Hc & Hk). exists w, st'. auto.
    + apply IH2 in Hm as (w & st' & Hw & Hc & Hk). exists w, st'. auto.
  - intros Hm. by eapply starLoop_matches.
  - intros Hm. apply IH in Hm as (w & st1 & Hw & Hc & Hk).
    exists w, (capture n st st1). split; [exact Hw|].
    split; [by apply consumes_capture | exact Hk].
  - destruct (ms_pos st =? 0)%nat; [|discriminate]. intros Hk.
    exists [], st. split; [reflexivity|]. split; [apply consumes_nil|exact Hk].
  - destruct (ms_rest st); [|discriminate]. intros Hk.
    exists [], st. split; [reflexivity|]. split; [apply consumes_nil|exact Hk].
Qed.

Lemma matchAt_den ci r pos rest m :
  matchAt ci r pos rest = Some m → Den ci r (list_ascii_of_string (m_text m)).
Proof.
  unfold matchAt.
  destruct (rmatch ci r (MState pos rest []) Some) as [st'|] eqn:Hm; [|discriminate].
  intros [= <-]. cbn [m_text].
  apply rmatch_matches in Hm as (w & st1 & Hw & [Hr Hp] & [= ->]).
  cbn [ms_rest ms_pos] in *. rewrite Hp, Hr.
  replace (pos + length w - pos)%nat with (length w) by lia.
  by rewrite take_app_length, list_ascii_of_string_of_list_ascii.
Qed.

Lemma searchFrom_den ci r rest :
  ∀ pos m, searchFrom ci r pos rest = Some m → Den ci r (list_ascii_of_string (m_text m)).
Proof.
  induction rest as [|x rest IH]; intros pos m; cbn [searchFrom].
  - destruct (matchAt ci r pos []) as [m'|] eqn:Hm; [|discriminate].
    intros [= <-]. by eapply matchAt_den.
  - destruct (matchAt ci r pos (x :: rest)) as [m'|] eqn:Hm.
    + intros [= <-]. by eapply matchAt_den.
    + apply IH.
Qed.

Lemma execLoop_den ci r fuel :
  ∀ pos rest, Forall (λ m, Den ci r (list_ascii_of_string (m_text m)))
                     (execLoop fuel ci r pos rest).
Proof.
  induction fuel as [|fuel IH]; intros pos rest; cbn [execLoop]; [constructor|].
  destruct (searchFrom ci r pos rest) as [m|] eqn:Hs; [|constructor].
  constructor; [by eapply searchFrom_den | apply IH].
Qed.

(** Every match that a scan visits has a text that the regex accepts. *)
Lemma execAll_den ci r s :
  Forall (λ m, Den ci r (list_ascii_of_string (m_text m))) (execAll ci r s).
Proof. apply execLoop_den. Qed.

End ShapeFacts.

Module CharFacts.

Import Regex Audio Spec Shape.
Local Open Scope list_scope.

Lemma allAscii_complete (x : ascii) : In x allAscii.
Proof.
  unfold allAscii. rewrite <- (ascii_nat_embedding x).
  apply in_map, in_seq. pose proof (nat_ascii_bounded x). lia.
Qed.

Lemma forall_ascii (p : ascii → bool) :
  forallb p allAscii = true → ∀ x, p x = true.
Proof. intros H x. eapply forallb_forall in H; [exact H | apply allAscii_complete]. Qed.

Lemma forall_ascii2 (p : ascii → ascii → bool) :
  forallb (λ c, forallb (p c) allAscii) allAscii = true → ∀ c x, p c x = true.
Proof. intros H c x. apply forall_ascii. by apply (forall_ascii _ H c). Qed.

(** Two characters that a case-insensitive regex takes for the same have
    the same lower case and are both white space or both not. *)
Lemma charEq_lowerChar c x :
  charEq true c x = true → Js.lowerChar x = Js.lowerChar c.
Proof.
  intros H.
  pose proof (forall_ascii2
    (λ c x, implb (charEq true c x) (Ascii.eqb (Js.lowerChar x) (Js.lowerChar c)))
    ltac:(vm_compute; reflexivity) c x) as Hall.
  cbv beta in Hall. rewrite H in Hall. by apply Ascii.eqb_eq.
Qed.

Lemma charEq_isWhiteSpace c x :
  charEq true c x = true → Js.isWhiteSpace x = Js.isWhiteSpace c.
Proof.
  intros H.
  pose proof (forall_ascii2
    (λ c x, implb (charEq true c x) (Bool.eqb (Js.isWhiteSpace x) (Js.isWhiteSpace c)))
    ltac:(vm_compute; reflexivity) c x) as Hall.
  cbv beta in Hall. rewrite H in Hall. by apply Bool.eqb_prop.
Qed.

Lemma lowerChar_idem x : Js.lowerChar (Js.lowerChar x) = Js.lowerChar x.
Proof.
  apply Ascii.eqb_eq.
  apply (forall_ascii (λ x, Ascii.eqb (Js.lowerChar (Js.lowerChar x)) (Js.lowerChar x))).
  vm_compute; reflexivity.
Qed.

(** Lower-casing neither makes nor unmakes a slash or a dot. *)
Lemma lowerChar_slash x : Ascii.eqb (Js.lowerChar x) "/" = Ascii.eqb x "/".
Proof.
  apply Bool.eqb_prop.
  apply (forall_ascii (λ x, Bool.eqb (Ascii.eqb (Js.lowerChar x) "/") (Ascii.eqb x "/"))).
  vm_compute; reflexivity.
Qed.

Lemma lowerChar_dot x : Ascii.eqb (Js.lowerChar x) "." = Ascii.eqb x ".".
Proof.
  apply Bool.eqb_prop.
  apply (forall_ascii (λ x, Bool.eqb (Ascii.eqb (Js.lowerChar x) ".") (Ascii.eqb x "."))).
  vm_compute; reflexivity.
Qed.

(** Strings and their lists of characters. *)
Lemma list_of_mapString f s :
  list_ascii_of_string (Js.mapString f s) = f <$> list_ascii_of_string s.
Proof. induction s as [|c s IH]; simpl; [reflexivity | by rewrite IH]. Qed.

Lemma mapString_of_list f l :
  Js.mapString f (string_of_list_ascii l) = string_of_list_ascii (f <$> l).
Proof. induction l as [|c l IH]; simpl; [reflexivity | by rewrite IH]. Qed.

Lemma string_of_app l1 l2 :
  string_of_list_ascii (l1 ++ l2) = string_of_list_ascii l1 +:+ string_of_list_ascii l2.
Proof. induction l1 as [|c l1 IH]; simpl; [reflexivity | by rewrite IH]. Qed.

Lemma toLowerCase_idem s : Js.toLowerCase (Js.toLowerCase s) = Js.toLowerCase s.
Proof.
  unfold Js.toLowerCase. induction s as [|c s IH]; simpl; [reflexivity|].
  by rewrite lowerChar_idem, IH.
Qed.

Lemma toLowerCase_empty s : Js.toLowerCase s = EmptyString ↔ s = EmptyString.
Proof. unfold Js.toLowerCase. destruct s; simpl; split; intros H; done. Qed.

Lemma string_length_list s : length (list_ascii_of_string s) = String.length s.
Proof. induction s as [|c s IH]; simpl; [reflexivity | by rewrite IH]. Qed.

End CharFacts.

(** ** The shape of what the detector emits *)

Module DetectorShape.

Import Regex Audio Spec Shape RegexFacts ShapeFacts CharFacts DetectorFacts.
Local Open Scope list_scope.

Lemma den_RLit lit : ∀ w, Den true (RLit lit) w → SameLetters lit w.
Proof.
  unfold SameLetters.
  induction lit as [|c lit IH]; intros w; cbn [RLit].
  - intros ->. constructor.
  - destruct lit as [|c' lit'].
    + intros (x & -> & Hx). by repeat constructor.
    + intros (w1 & w2 & -> & (x & -> & Hx) & Hw2).
      cbn [list_ascii_of_string app]. constructor; [exact Hx | by apply IH].
Qed.

Lemma den_RAlts ci l : ∀ w, Den ci (RAlts l) w → l ≠ [] → ∃ r, r ∈ l ∧ Den ci r w.
Proof.
  induction l as [|r l IH]; intros w Hw Hne; [done|].
  destruct l as [|r' l'].
  - exists r. split; [left | exact Hw].
  - destruct Hw as [Hw|Hw].
    + exists r. split; [left | exact Hw].
    + destruct (IH w Hw ltac:(done)) as (r0 & Hin & Hr0).
      exists r0. split; [by right | exact Hr0].
Qed.

Lemma den_extAlt w :
  Den true extAlt w → ∃ ext, ext ∈ extensionNames ∧ SameLetters ext w.
Proof.
  intros Hw. apply den_RAlts in Hw as (r & Hin & Hr); [|done].
  apply list_elem_of_fmap in Hin as (ext & -> & Hext).
  exists ext. split; [exact Hext | by apply den_RLit].
Qed.

Lemma sameLetters_lower lit w :
  SameLetters lit w → Js.lowerChar <$> w = Js.lowerChar <$> list_ascii_of_string lit.
Proof.
  unfold SameLetters. induction 1 as [|c x cs w Hx _ IH]; [reflexivity|].
  cbn [fmap list_fmap]. f_equal; [by apply charEq_lowerChar | exact IH].
Qed.

Lemma sameLetters_noWhite lit w :
  NoWhite (list_ascii_of_string lit) → SameLetters lit w → NoWhite w.
Proof.
  unfold SameLetters, NoWhite. intros Hlit Hw. revert Hlit.
  induction Hw as [|c x cs w Hx _ IH]; intros Hlit; [constructor|].
  apply Forall_cons in Hlit as [Hc Hcs]. constructor; [|by apply IH].
  by rewrite (charEq_isWhiteSpace c x Hx).
Qed.

(** The names of the extensions are lower-case and hold no white space. *)
Lemma extensionNames_plain ext :
  ext ∈ extensionNames →
  Js.lowerChar <$> list_ascii_of_string ext = list_ascii_of_string ext
  ∧ NoWhite (list_ascii_of_string ext).
Proof.
  intros Hext.
  assert (Hall : Forall (λ ext,
            Js.lowerChar <$> list_ascii_of_string ext = list_ascii_of_string ext
            ∧ NoWhite (list_ascii_of_string ext)) extensionNames).
  { unfold NoWhite. repeat constructor. }
  by apply (proj1 (Forall_forall _ _) Hall).
Qed.

Lemma den_plus_set neg items w :
  Den true (RPlus true (RSet neg items)) w →
  w ≠ [] ∧ Forall (λ x, setMatch true neg items x = true) w.
Proof.
  intros (w1 & w2 & -> & (x & -> & Hx) & ws & -> & Hws). split; [done|].
  constructor; [exact Hx|].
  induction Hws as [|w ws (y & -> & Hy) _ IH]; [constructor|].
  cbn [concat app]. by constructor.
Qed.

(** What a match of [fileUrlPattern] looks like. *)
Lemma fileUrl_shape w :
  Den true fileUrlPattern w →
  (∃ x t, w = x :: t ∧ charEq true "f" x = true)
  ∧ NoWhite w
  ∧ ∃ stem ext, ext ∈ extensionNames
                ∧ Js.lowerChar <$> w = stem ++ "."%char :: list_ascii_of_string ext.
Proof.
  unfold fileUrlPattern, RSeqs. cbn [foldr].
  intros (w0 & t0 & -> & H0 & w1 & t1 & -> & H1 & wd & t2 & -> & (d & -> & Hd)
          & we & t3 & -> & He & Ht3).
  cbn [Den] in Ht3. subst t3.
  apply den_RLit in H0. apply den_plus_set in H1 as [_ H1].
  apply den_extAlt in He as (ext & Hext & He).
  destruct (extensionNames_plain ext Hext) as [Hlow Hnw].
  rewrite app_nil_r. split; [|split].
  - unfold SameLetters in H0. cbn [list_ascii_of_string] in H0.
    inversion H0 as [|c x cs t Hx Ht]; subst. by exists x, (t ++ w1 ++ [d] ++ we).
  - unfold NoWhite. rewrite !Forall_app. repeat split.
    + eapply sameLetters_noWhite; [|exact H0]. unfold NoWhite. repeat constructor.
    + eapply Forall_impl; [exact H1|]. intros x Hx. cbn in Hx.
      by destruct (Js.isWhiteSpace x).
    + constructor; [|constructor]. by rewrite (charEq_isWhiteSpace _ _ Hd).
    + by eapply sameLetters_noWhite.
  - exists (Js.lowerChar <$> (w0 ++ w1)), ext. split; [exact Hext|].
    rewrite !fmap_app, (sameLetters_lower ext we He), Hlow. cbn [fmap list_fmap].
    rewrite (charEq_lowerChar _ _ Hd). by rewrite <- app_assoc.
Qed.

Lemma trim_noWhite w :
  NoWhite w → Js.trim (string_of_list_ascii w) = string_of_list_ascii w.
Proof.
  intros Hw. destruct w as [|c w]; [reflexivity|].
  apply Forall_cons in Hw as [Hc Hw].
  unfold Js.trim. cbn [string_of_list_ascii Js.trimStart]. rewrite Hc.
  revert c Hc. induction Hw as [|x w Hx _ IH]; intros c Hc; cbn.
  - by rewrite Hc.
  - specialize (IH x Hx). cbn in IH. by rewrite IH.
Qed.

Lemma fileUrl_text_shaped (s : string) r :
  Den true fileUrlPattern (list_ascii_of_string s) → raw r = s → UrlShaped r.
Proof.
  intros Hden Hraw. unfold UrlShaped. rewrite Hraw. clear Hraw.
  destruct (fileUrl_shape _ Hden) as ((x & t & Hw & Hx) & Hnw & Hext).
  rewrite <- (string_of_list_ascii_of_string s).
  set (w := list_ascii_of_string s) in *. clearbody w. subst w.
  split; [done|]. split; [by apply trim_noWhite|]. split.
  - unfold isRemote, Js.startsWith. cbn [string_of_list_ascii String.prefix].
    destruct (ascii_dec "h" x) as [<-|_]; [by vm_compute in Hx|].
    destruct (ascii_dec "h" x) as [<-|_]; [by vm_compute in Hx|]. reflexivity.
  - destruct Hext as (stem & ext & Hin & Heq).
    exists (string_of_list_ascii stem), ext. split; [exact Hin|].
    unfold Js.toLowerCase. rewrite mapString_of_list, Heq, string_of_app.
    cbn [string_of_list_ascii]. by rewrite string_of_list_ascii_of_string.
Qed.

Lemma foldl_pushes_on {A} (Q : A → Prop) P (step : DetectState → A → DetectState) :
  (∀ st m, Q m → Pushes P st (step st m)) →
  ∀ ms, Forall Q ms → ∀ st, Pushes P st (foldl step st ms).
Proof.
  intros Hstep ms Hms. induction Hms as [|m ms Hm _ IH]; intros st; simpl.
  - apply pushes_refl.
  - eapply pushes_trans; [by apply Hstep | apply IH].
Qed.

Lemma pushes_and P Q st st' :
  Pushes P st st' → Pushes Q st st' → Pushes (λ r, P r ∧ Q r) st st'.
Proof.
  intros (l1 & H1 & F1) (l2 & H2 & F2). rewrite H1 in H2.
  apply app_inv_head in H2. subst l2. exists l1. split; [exact H1|].
  apply Forall_forall. intros r Hr. split.
  - by apply (proj1 (Forall_forall _ _) F1).
  - by apply (proj1 (Forall_forall _ _) F2).
Qed.

Section Scans.
Variable resolveUserPath : string → string.
Variable fileURLToPath : string → option string.

Lemma fileUrlStep_shaped st m :
  Den true fileUrlPattern (list_ascii_of_string (m_text m)) →
  Pushes UrlShaped st (fileUrlStep fileURLToPath st m).
Proof.
  intros Hden.
  destruct (fileUrlStep_cases fileURLToPath st m) as [->|[[_ ->]|(r & _ & Hraw & _ & ->)]].
  - apply pushes_refl.
  - exists []. split; [simpl; by rewrite app_nil_r | constructor].
  - exists [r]. split; [reflexivity|]. constructor; [|constructor].
    by eapply fileUrl_text_shaped.
Qed.

Lemma scanFileUrls_shaped prompt st :
  Pushes UrlShaped st (scanFileUrls fileURLToPath prompt st).
Proof.
  unfold scanFileUrls.
  apply (foldl_pushes_on (λ m, Den true fileUrlPattern (list_ascii_of_string (m_text m)))).
  - intros st0 m. apply fileUrlStep_shaped.
  - apply execAll_den.
Qed.

(** No loop sets [messageIndex]. *)
Lemma addPathRef_unindexed c st :
  Pushes (λ r, messageIndex r = None) st (addPathRef resolveUserPath c st).
Proof.
  unfold addPathRef.
  destruct (negb (Js.truthy (Js.trim c)) || bool_decide (Js.toLowerCase (Js.trim c) ∈ seen st));
    [apply pushes_refl|].
  destruct (isRemote (Js.trim c)); [apply pushes_refl|].
  destruct (negb (isAudioExtension (Js.trim c))); [apply pushes_refl|].
  eexists [_]. split; [reflexivity|]. by repeat constructor.
Qed.

Lemma markerStep_unindexed st m :
  Pushes (λ r, messageIndex r = None) st (markerStep resolveUserPath st m).
Proof.
  destruct (markerStep_cases resolveUserPath st m) as [->|[c ->]];
    auto using pushes_refl, addPathRef_unindexed.
Qed.

Lemma pathStep_unindexed st m :
  Pushes (λ r, messageIndex r = None) st (pathStep resolveUserPath st m).
Proof.
  destruct (pathStep_cases resolveUserPath st m) as [->|[c ->]];
    auto using pushes_refl, addPathRef_unindexed.
Qed.

Lemma fileUrlStep_unindexed st m :
  Pushes (λ r, messageIndex r = None) st (fileUrlStep fileURLToPath st m).
Proof.
  unfold fileUrlStep.
  destruct (bool_decide (Js.toLowerCase (m_text m) ∈ seen st)); [apply pushes_refl|].
  destruct (fileURLToPath (m_text m)).
  - eexists [_]. split; [reflexivity|]. by repeat constructor.
  - exists []. split; [simpl; by rewrite app_nil_r | constructor].
Qed.

(** The three groups of references of one pass, each with what its loop
    guarantees. *)
Lemma detect_by_origin prompt :
  ∃ fromMarkers fromUrls fromPaths,
    detectAudioReferences resolveUserPath fileURLToPath prompt
      = fromMarkers ++ fromUrls ++ fromPaths
    ∧ refs (scanMarkers resolveUserPath prompt detectInit) = fromMarkers
    ∧ refs (scanFileUrls fileURLToPath prompt
              (scanMarkers resolveUserPath prompt detectInit))
      = fromMarkers ++ fromUrls
    ∧ Forall (λ r, ViaAddPathRef resolveUserPath r ∧ messageIndex r = None) fromMarkers
    ∧ Forall (λ r, (ViaFileUrl fileURLToPath r ∧ UrlShaped r) ∧ messageIndex r = None)
             fromUrls
    ∧ Forall (λ r, ViaAddPathRef resolveUserPath r ∧ messageIndex r = None) fromPaths.
Proof.
  pose (s1 := scanMarkers resolveUserPath prompt detectInit).
  pose (s2 := scanFileUrls fileURLToPath prompt s1).
  destruct (pushes_and _ _ _ _ (scanMarkers_pushes resolveUserPath prompt detectInit)
              (foldl_pushes _ _ markerStep_unindexed _ detectInit)) as (lm & Hm & Fm).
  destruct (pushes_and _ _ _ _
              (pushes_and _ _ _ _ (scanFileUrls_pushes fileURLToPath prompt s1)
                 (scanFileUrls_shaped prompt s1))
              (foldl_pushes _ _ fileUrlStep_unindexed _ s1)) as (lu & Hu & Fu).
  destruct (pushes_and _ _ _ _ (scanPaths_pushes resolveUserPath prompt s2)
              (foldl_pushes _ _ pathStep_unindexed _ s2)) as (lp & Hp & Fp).
  exists lm, lu, lp. unfold detectAudioReferences, detectState.
  subst s1 s2. rewrite Hp, Hu, Hm. simpl. rewrite <- app_assoc.
  by repeat split.
Qed.

End Scans.

End DetectorShape.

(** ** Matches and captures are pieces of the input *)

Module WithinFacts.

Import Regex Audio Spec Shape RegexFacts CharFacts DetectorFacts DetectorShape.
Local Open Scope list_scope.

Lemma infix_refl l : Infix l l.
Proof. exists [], []. by rewrite app_nil_r. Qed.

Lemma infix_trans a b c : Infix a b → Infix b c → Infix a c.
Proof.
  intros (p1 & q1 & ->) (p2 & q2 & ->). exists (p2 ++ p1), (q1 ++ q2).
  by rewrite <- !app_assoc.
Qed.

Lemma infix_take_suffix n rest input :
  rest `suffix_of` input → Infix (take n rest) input.
Proof.
  intros [pre ->]. exists pre, (drop n rest). by rewrite take_drop.
Qed.

Lemma suffix_tail {A} (x : A) xs input : (x :: xs) `suffix_of` input → xs `suffix_of` input.
Proof. intros [pre ->]. exists (pre ++ [x]). by rewrite <- app_assoc. Qed.

Lemma suffix_drop {A} n (rest input : list A) :
  rest `suffix_of` input → drop n rest `suffix_of` input.
Proof.
  intros [pre ->]. exists (pre ++ take n rest). by rewrite <- app_assoc, take_drop.
Qed.

Lemma substring_refl s : Substring s s.
Proof. apply infix_refl. Qed.

Lemma substring_trans a b c : Substring a b → Substring b c → Substring a c.
Proof. apply infix_trans. Qed.

Lemma substring_trimStart s : Substring (Js.trimStart s) s.
Proof.
  induction s as [|c s IH]; [apply substring_refl|]. cbn [Js.trimStart].
  destruct (Js.isWhiteSpace c); [|apply substring_refl].
  destruct IH as (pre & post & Heq). exists (c :: pre), post.
  cbn [list_ascii_of_string]. by rewrite Heq.
Qed.

Lemma prefix_trimEnd s :
  ∃ post, list_ascii_of_string s = list_ascii_of_string (Js.trimEnd s) ++ post.
Proof.
  induction s as [|c s [post IH]]; [by exists []|]. cbn [Js.trimEnd].
  destruct (Js.trimEnd s) as [|c' t] eqn:Ht.
  - destruct (Js.isWhiteSpace c).
    + by exists (c :: list_ascii_of_string s).
    + exists (list_ascii_of_string s). reflexivity.
  - exists post. cbn [list_ascii_of_string app] in *. by rewrite IH.
Qed.

Lemma substring_trim s : Substring (Js.trim s) s.
Proof.
  eapply substring_trans; [|apply substring_trimStart]. unfold Js.trim.
  destruct (prefix_trimEnd (Js.trimStart s)) as [post Heq].
  exists [], post. by rewrite Heq.
Qed.

Lemma step1_keeps input p : Keeps input (step1 p).
Proof.
  intros st k res. unfold step1.
  destruct (ms_rest st) as [|x xs] eqn:Hrest; [discriminate|].
  destruct (p x); [|discriminate]. intros Hk [Hsuf Hcaps].
  eexists. split; [|exact Hk]. split; cbn [ms_rest ms_caps]; [|exact Hcaps].
  rewrite Hrest in Hsuf. by eapply suffix_tail.
Qed.

Lemma starLoop_keeps input body greedy k :
  Keeps input body →
  ∀ fuel st res, starLoop body greedy k fuel st = Some res → Within input st →
                 ∃ st', Within input st' ∧ k st' = Some res.
Proof.
  intros Hbody fuel. induction fuel as [|fuel IH]; intros st res; cbn [starLoop].
  - intros Hk Hst. by exists st.
  - intros Hres Hst.
    assert (Hagain :
      body st (λ st', if (ms_pos st <? ms_pos st')%nat
                      then starLoop body greedy k fuel st' else None) = Some res →
      ∃ st', Within input st' ∧ k st' = Some res).
    { intros Hb. destruct (Hbody _ _ _ Hb Hst) as (st1 & Hst1 & Hcont).
      destruct (ms_pos st <? ms_pos st1)%nat; [|discriminate]. by eapply IH. }
    destruct greedy; apply orElse_Some in Hres as [Hres|[_ Hres]]; auto;
      by exists st.
Qed.

Lemma rmatch_keeps input ci r : Keeps input (rmatch ci r).
Proof.
  induction r as [|c| |neg items|r1 IH1 r2 IH2|r1 IH1 r2 IH2|g r IH|n r IH| |];
    intros st k res; cbn [rmatch].
  - intros Hk Hst. by exists st.
  - apply step1_keeps.
  - apply step1_keeps.
  - apply step1_keeps.
  - intros Hm Hst. destruct (IH1 _ _ _ Hm Hst) as (st1 & Hst1 & Hm1).
    by apply (IH2 _ _ _ Hm1 Hst1).
  - intros Hm Hst. apply orElse_Some in Hm as [Hm|[_ Hm]]; eauto.
  - intros Hm Hst. by eapply starLoop_keeps.
  - intros Hm Hst. destruct (IH _ _ _ Hm Hst) as (st1 & [Hsuf1 Hcaps1] & Hk).
    exists (capture n st st1). split; [|exact Hk].
    split; cbn [capture ms_rest ms_caps]; [exact Hsuf1|].
    constructor; [|exact Hcaps1]. cbn [snd].
    rewrite list_ascii_of_string_of_list_ascii.
    apply infix_take_suffix, Hst.
  - destruct (ms_pos st =? 0)%nat; [|discriminate]. intros Hk Hst. by exists st.
  - destruct (ms_rest st); [|discriminate]. intros Hk Hst. by exists st.
Qed.

Lemma matchAt_within ci r s pos rest m :
  rest `suffix_of` list_ascii_of_string s →
  matchAt ci r pos rest = Some m → MatchWithin s m.
Proof.
  intros Hsuf. unfold matchAt.
  destruct (rmatch ci r (MState pos rest []) Some) as [st'|] eqn:Hm; [|discriminate].
  intros [= <-].
  destruct (rmatch_keeps (list_ascii_of_string s) _ _ _ _ _ Hm
              (conj Hsuf (Forall_nil_2 _))) as (st1 & [_ Hcaps] & [= ->]).
  split; cbn [m_text m_caps]; [|exact Hcaps].
  unfold Substring. rewrite list_ascii_of_string_of_list_ascii.
  by apply infix_take_suffix.
Qed.

Lemma searchFrom_within ci r s rest :
  ∀ pos m, rest `suffix_of` list_ascii_of_string s →
           searchFrom ci r pos rest = Some m → MatchWithin s m.
Proof.
  induction rest as [|x rest IH]; intros pos m Hsuf; cbn [searchFrom].
  - destruct (matchAt ci r pos []) as [m'|] eqn:Hm; [|discriminate].
    intros [= <-]. by eapply matchAt_within.
  - destruct (matchAt ci r pos (x :: rest)) as [m'|] eqn:Hm.
    + intros [= <-]. by eapply matchAt_within.
    + apply IH. by eapply suffix_tail.
Qed.

Lemma execLoop_within ci r s fuel :
  ∀ pos rest, rest `suffix_of` list_ascii_of_string s →
              Forall (MatchWithin s) (execLoop fuel ci r pos rest).
Proof.
  induction fuel as [|fuel IH]; intros pos rest Hsuf; cbn [execLoop]; [constructor|].
  destruct (searchFrom ci r pos rest) as [m|] eqn:Hs; [|constructor].
  constructor; [by eapply searchFrom_within | by apply IH, suffix_drop].
Qed.

(** The text and the captures of every match of a scan occur verbatim in
    the string scanned. *)
Lemma execAll_within ci r s : Forall (MatchWithin s) (execAll ci r s).
Proof. apply execLoop_within. by exists []. Qed.

Lemma exec_within ci r s m : exec ci r s = Some m → MatchWithin s m.
Proof. apply searchFrom_within. by exists []. Qed.

Lemma group_within n s m c : MatchWithin s m → group n m = Some c → Substring c s.
Proof.
  intros [_ Hcaps]. unfold group.
  destruct (List.find _ (m_caps m)) as [[n' c']|] eqn:Hfind; [|discriminate].
  intros [= <-]. apply find_some in Hfind as [Hin _].
  apply list_elem_of_In in Hin. by apply (proj1 (Forall_forall _ _) Hcaps (n', c')).
Qed.

Section Scans.
Variable resolveUserPath : string → string.
Variable fileURLToPath : string → option string.
Variable prompt : string.

Lemma addPathRef_within c st :
  Substring c prompt →
  Pushes (λ r, Substring (raw r) prompt) st (addPathRef resolveUserPath c st).
Proof.
  intros Hc.
  destruct (addPathRef_cases resolveUserPath c st) as [->|(r & _ & Hraw & _ & ->)].
  - apply pushes_refl.
  - exists [r]. split; [reflexivity|]. constructor; [|constructor].
    rewrite Hraw. eapply substring_trans; [apply substring_trim | exact Hc].
Qed.

Lemma markerStep_within st m :
  MatchWithin prompt m →
  Pushes (λ r, Substring (raw r) prompt) st (markerStep resolveUserPath st m).
Proof.
  intros Hm. unfold markerStep.
  destruct (group 1 m) as [content|] eqn:Hg; [|apply pushes_refl].
  destruct (test true fileCountPattern (Js.trim content)); [apply pushes_refl|].
  destruct (exec true markerPathPattern content) as [pm|] eqn:Hpm; [|apply pushes_refl].
  destruct (group 1 pm) as [p|] eqn:Hp; [|apply pushes_refl].
  destruct (Js.truthy p); [|apply pushes_refl].
  apply addPathRef_within.
  eapply substring_trans; [apply substring_trim|].
  eapply substring_trans; [|by eapply group_within].
  eapply group_within; [by eapply exec_within | exact Hp].
Qed.

Lemma pathStep_within st m :
  MatchWithin prompt m →
  Pushes (λ r, Substring (raw r) prompt) st (pathStep resolveUserPath st m).
Proof.
  intros Hm. unfold pathStep.
  destruct (group 1 m) as [p|] eqn:Hp; [|apply pushes_refl].
  destruct (Js.truthy p); [|apply pushes_refl].
  apply addPathRef_within. by eapply group_within.
Qed.

Lemma fileUrlStep_within st m :
  MatchWithin prompt m →
  Pushes (λ r, Substring (raw r) prompt) st (fileUrlStep fileURLToPath st m).
Proof.
  intros [Hm _].
  destruct (fileUrlStep_cases fileURLToPath st m) as [->|[[_ ->]|(r & _ & Hraw & _ & ->)]].
  - apply pushes_refl.
  - exists []. split; [simpl; by rewrite app_nil_r | constructor].
  - exists [r]. split; [reflexivity|]. constructor; [|constructor]. by rewrite Hraw.
Qed.

End Scans.

End WithinFacts.

(** ** More about one detection pass *)

Module DetectionMore.

Import Regex Audio Spec Shape RegexFacts ShapeFacts CharFacts DetectorFacts DetectorShape.
Import WithinFacts.
Import Io Loader Sample.
Local Open Scope list_scope.

(** X1.  Every reference that [detectAudioReferences] emits is of kind
    path and has no [messageIndex]; its [raw] is not empty, has no white
    space at either end, and does not start with "http://" or "https://". *)
Theorem detected_refs_well_formed :
  ∀ (resolveUserPath : string → string) (fileURLToPath : string → option string)
    (prompt : string),
    Forall (λ r, type r = TPath
                 ∧ messageIndex r = None
                 ∧ raw r ≠ EmptyString
                 ∧ Js.trim (raw r) = raw r
                 ∧ Js.startsWith (raw r) "http://" = false
                 ∧ Js.startsWith (raw r) "https://" = false)
           (detectAudioReferences resolveUserPath fileURLToPath prompt).
Proof.
  intros rup furl prompt.
  destruct (detect_by_origin rup furl prompt) as (lm & lu & lp & -> & Hs1 & Hs2 & Fm & Fu & Fp).
  assert (Hadd : ∀ r, ViaAddPathRef rup r ∧ messageIndex r = None →
                      type r = TPath ∧ messageIndex r = None ∧ raw r ≠ EmptyString
                      ∧ Js.trim (raw r) = raw r
                      ∧ Js.startsWith (raw r) "http://" = false
                      ∧ Js.startsWith (raw r) "https://" = false).
  { intros r [(Hty & Htrim & Hne & Hrem & _) Hidx].
    unfold isRemote in Hrem. apply orb_false_iff in Hrem as [H1 H2].
    by repeat split. }
  rewrite !Forall_app. repeat split.
  - eapply Forall_impl; [exact Fm | exact Hadd].
  - eapply Forall_impl; [exact Fu|].
    intros r [[[Hty _] (Hne & Htrim & Hrem & _)] Hidx].
    unfold isRemote in Hrem. apply orb_false_iff in Hrem as [H1 H2].
    by repeat split.
  - eapply Forall_impl; [exact Fp | exact Hadd].
Qed.

(** X2.  Every emitted reference names a recognised extension.  The
    references of one pass are those the marker loop pushed, then those the
    [file://] loop pushed, then those the bare-path loop pushed; for the
    first and the last group [path.extname] of [raw], lower-cased, is in
    [AUDIO_EXTENSIONS]; for the middle group [raw], lower-cased, ends with
    a dot and one of the eleven extensions. *)
Theorem detected_refs_name_an_extension :
  ∀ (resolveUserPath : string → string) (fileURLToPath : string → option string)
    (prompt : string),
    ∃ fromMarkers fromUrls fromPaths,
      detectAudioReferences resolveUserPath fileURLToPath prompt
        = fromMarkers ++ fromUrls ++ fromPaths
      ∧ refs (scanMarkers resolveUserPath prompt detectInit) = fromMarkers
      ∧ refs (scanFileUrls fileURLToPath prompt
                (scanMarkers resolveUserPath prompt detectInit))
        = fromMarkers ++ fromUrls
      ∧ Forall (λ r, Js.toLowerCase (NodePath.extname (raw r)) ∈ AUDIO_EXTENSIONS)
               fromMarkers
      ∧ Forall (λ r, EndsWithExtension (raw r)) fromUrls
      ∧ Forall (λ r, Js.toLowerCase (NodePath.extname (raw r)) ∈ AUDIO_EXTENSIONS)
               fromPaths.
Proof.
  intros rup furl prompt.
  destruct (detect_by_origin rup furl prompt)
    as (lm & lu & lp & Hout & Hs1 & Hs2 & Fm & Fu & Fp).
  exists lm, lu, lp. split; [exact Hout|]. split; [exact Hs1|]. split; [exact Hs2|].
  assert (Hadd : ∀ r, ViaAddPathRef rup r ∧ messageIndex r = None →
                      Js.toLowerCase (NodePath.extname (raw r)) ∈ AUDIO_EXTENSIONS).
  { intros r [(_ & _ & _ & _ & Hext & _) _]. unfold isAudioExtension in Hext.
    by apply bool_decide_eq_true in Hext. }
  repeat split.
  - eapply Forall_impl; [exact Fm | exact Hadd].
  - eapply Forall_impl; [exact Fu|]. intros r [[_ Hshape] _]. apply Hshape.
  - eapply Forall_impl; [exact Fp | exact Hadd].
Qed.

(** X11.  The [raw] of every emitted reference occurs verbatim, in one
    piece, in the prompt: the detector trims what it matched and changes
    nothing else. *)
Theorem detected_raw_occurs_in_prompt :
  ∀ (resolveUserPath : string → string) (fileURLToPath : string → option string)
    (prompt : string),
    Forall (λ r, Substring (raw r) prompt)
           (detectAudioReferences resolveUserPath fileURLToPath prompt).
Proof.
  intros rup furl prompt. unfold detectAudioReferences, detectState.
  assert (Hall : Pushes (λ r, Substring (raw r) prompt) detectInit
            (scanPaths rup prompt
               (scanFileUrls furl prompt (scanMarkers rup prompt detectInit)))).
  { eapply pushes_trans; [|eapply pushes_trans].
    - apply (foldl_pushes_on (MatchWithin prompt)); [apply markerStep_within|].
      apply execAll_within.
    - apply (foldl_pushes_on (MatchWithin prompt)); [apply fileUrlStep_within|].
      apply execAll_within.
    - apply (foldl_pushes_on (MatchWithin prompt)); [apply pathStep_within|].
      apply execAll_within. }
  destruct Hall as (l & -> & Hl). exact Hl.
Qed.

Lemma extStep_lower i c s :
  NodePath.extStep i (Js.lowerChar c) s = NodePath.extStep i c s.
Proof. unfold NodePath.extStep. by rewrite lowerChar_slash, lowerChar_dot. Qed.

Lemma extScan_lower chars :
  ∀ i s, NodePath.extScan i (Js.lowerChar <$> chars) s = NodePath.extScan i chars s.
Proof.
  induction chars as [|c chars IH]; intros i s; [reflexivity|].
  cbn [fmap list_fmap NodePath.extScan]. by rewrite extStep_lower, IH.
Qed.

Lemma extname_lower p :
  NodePath.extname (Js.toLowerCase p) = Js.toLowerCase (NodePath.extname p).
Proof.
  unfold NodePath.extname, Js.toLowerCase.
  rewrite list_of_mapString, extScan_lower.
  destruct (NodePath.startDot _) as [sd|]; [|reflexivity].
  destruct (NodePath.endIdx _) as [e|]; [|reflexivity].
  match goal with |- context [if ?b then _ else _] => destruct b end; [reflexivity|].
  by rewrite mapString_of_list, fmap_take, fmap_drop.
Qed.

Lemma isAudioExtension_lower p :
  isAudioExtension (Js.toLowerCase p) = isAudioExtension p.
Proof. unfold isAudioExtension. by rewrite extname_lower, toLowerCase_idem. Qed.

(** X3.  [isAudioExtension] does not look at the letter case: two paths
    with the same lower case are both accepted or both refused. *)
Theorem isAudioExtension_ignores_case :
  ∀ p q : string,
    Js.toLowerCase p = Js.toLowerCase q → isAudioExtension p = isAudioExtension q.
Proof.
  intros p q Heq.
  by rewrite <- (isAudioExtension_lower p), <- (isAudioExtension_lower q), Heq.
Qed.

Lemma isAudioExtension_ignores_case_witness :
  Js.toLowerCase "/Music/Take One.MP3" = Js.toLowerCase "/music/take one.mp3"
  ∧ isAudioExtension "/Music/Take One.MP3" = isAudioExtension "/music/take one.mp3".
Proof.
  split; [reflexivity|].
  apply (isAudioExtension_ignores_case "/Music/Take One.MP3" "/music/take one.mp3").
  reflexivity.
Defined.

(** X4.  A candidate handed to [addPathRef] after another one that has
    the same lower case once trimmed, and that agrees with it on being an
    http(s) URL, changes nothing: whether the first one was pushed or
    refused, the second one is not pushed.  In particular handing the same
    candidate twice is the same as handing it once. *)
Theorem addPathRef_repeat_is_noop :
  ∀ (resolveUserPath : string → string) (c c' : string) (st : DetectState),
    Js.toLowerCase (Js.trim c') = Js.toLowerCase (Js.trim c) →
    isRemote (Js.trim c') = isRemote (Js.trim c) →
    addPathRef resolveUserPath c' (addPathRef resolveUserPath c st)
    = addPathRef resolveUserPath c st.
Proof.
  intros rup c c' st Hkey Hrem.
  assert (Htruthy : Js.truthy (Js.trim c') = Js.truthy (Js.trim c)).
  { destruct (Js.trim c') eqn:H1, (Js.trim c) eqn:H2; try reflexivity; discriminate. }
  assert (Hext : isAudioExtension (Js.trim c') = isAudioExtension (Js.trim c)).
  { by apply isAudioExtension_ignores_case. }
  destruct (addPathRef_cases rup c st) as [Hsame|(r & _ & Hraw & _ & Hpush)].
  - rewrite Hsame. revert Hsame. unfold addPathRef.
    rewrite Hkey, Htruthy, Hrem, Hext.
    destruct (negb (Js.truthy (Js.trim c))
              || bool_decide (Js.toLowerCase (Js.trim c) ∈ seen st)); [done|].
    destruct (isRemote (Js.trim c)); [done|].
    destruct (negb (isAudioExtension (Js.trim c))); [done|].
    intros Habs. apply (f_equal refs) in Habs. simpl in Habs.
    apply (f_equal length) in Habs. rewrite length_app in Habs. simpl in Habs. lia.
  - rewrite Hpush. apply addPathRef_seen. cbn [seen].
    rewrite Hkey. unfold refKey. rewrite Hraw. set_solver.
Qed.

Lemma addPathRef_repeat_is_noop_witness :
  (Js.toLowerCase (Js.trim "  /Music/SONG.mp3 ") = Js.toLowerCase (Js.trim "/music/song.MP3")
   ∧ isRemote (Js.trim "  /Music/SONG.mp3 ") = isRemote (Js.trim "/music/song.MP3"))
  ∧ addPathRef sampleResolveUserPath "  /Music/SONG.mp3 "
      (addPathRef sampleResolveUserPath "/music/song.MP3" detectInit)
    = addPathRef sampleResolveUserPath "/music/song.MP3" detectInit.
Proof.
  split; [split; reflexivity|].
  apply (addPathRef_repeat_is_noop sampleResolveUserPath
           "/music/song.MP3" "  /Music/SONG.mp3 " detectInit); reflexivity.
Defined.

Lemma execAll_short ci r s :
  (String.length s < minLen r)%nat → execAll ci r s = [].
Proof.
  intros Hlen. unfold execAll. cbn [execLoop].
  destruct (searchFrom ci r 0 (list_ascii_of_string s)) as [m|] eqn:Hs; [|reflexivity].
  apply searchFrom_bounds in Hs. rewrite string_length_list in Hs. lia.
Qed.

Lemma short_prompt_no_refs rup furl prompt :
  (String.length prompt < 5)%nat → detectAudioReferences rup furl prompt = [].
Proof.
  intros Hlen. unfold detectAudioReferences, detectState, scanPaths, scanFileUrls, scanMarkers.
  destruct detector_patterns_consume as (Hm & Hu & Hp).
  rewrite !execAll_short; [reflexivity| | |]; lia.
Qed.

(** X5.  A prompt of fewer than five characters (the empty prompt among
    them) holds no reference, and the orchestrator then makes no external
    call: it returns zero counts, with the carried audio when the model
    qualifies and with no audio when it does not, and leaves the world and
    the trace as they were. *)
Theorem short_prompt_does_nothing :
  ∀ (E : Env) (params : Params) (s : IoState E),
    (String.length (prompt params) < 5)%nat →
    detectAudioReferences (resolveUserPath E) (fileURLToPath E) (prompt params) = []
    ∧ detectAndLoadPromptAudio params s
      = (Normal (MkResult (if modelSupportsAudio (model params)
                           then default [] (existingAudio params) else []) 0 0), s).
Proof.
  intros E params s Hlen.
  pose proof (short_prompt_no_refs (resolveUserPath E) (fileURLToPath E) _ Hlen) as Hnone.
  split; [exact Hnone|]. unfold detectAndLoadPromptAudio. rewrite Hnone.
  by destruct (modelSupportsAudio (model params)).
Qed.

Lemma short_prompt_does_nothing_witness :
  (String.length "~.m4" < 5)%nat
  ∧ detectAndLoadPromptAudio
      (MkParams "~.m4" "/work" multimodal (Some carried) None None) start
    = (Normal (MkResult carried 0 0), start).
Proof.
  split; [vm_compute; lia|].
  apply (proj2 (short_prompt_does_nothing sampleEnv
                  (MkParams "~.m4" "/work" multimodal (Some carried) None None) start
                  ltac:(vm_compute; lia))).
Defined.

End DetectionMore.

(** ** The calls that the loader and the orchestrator make *)

Module CallFacts.

Import Audio Io Loader Spec Shape LoaderFacts DetectorShape.
Local Open Scope list_scope.

Ltac trace_delta :=
  unfold logged, after; cbn [trace world]; rewrite <- ?app_assoc; reflexivity.

Section WithEnv.
Context {E : Env}.

(** One call of the loader, by its events. *)
Lemma loader_calls ref ws opts (s : IoState E) :
  ∃ v s' evs p,
    loadAudioFromRef ref ws opts s = (Normal v, s')
    ∧ trace s' = trace s ++ evs
    ∧ assertCalls evs = assertFor E ref ws opts
    ∧ ((ioCalls evs = [] ∧ v = None)
       ∨ (ioCalls evs = [EvStat p] ∧ v = None)
       ∨ ioCalls evs = [EvStat p; EvLoad p (optMaxBytes opts)])
    ∧ (truthyOpt (optSandboxRoot opts) = true ∨ ioCalls evs = []
       ∨ p = resolveTarget E ref ws opts)
    ∧ (type ref = TPath ∨ (evs = [EvDebug (remoteLine ref)] ∧ world s' = world s)).
Proof.
  unfold assertFor.
  destruct (type ref) eqn:Hty; cbn [isPath andb].
  - rewrite (loader_path ref ws opts s Hty).
    set (target := resolveTarget E ref ws opts).
    assert (Hio : ∀ p (s1 : IoState E) pre,
      trace s1 = trace s ++ pre → ioCalls pre = [] →
      (truthyOpt (optSandboxRoot opts) = true ∨ p = target) →
      ∃ v s' evs p0,
        match statStep ref p s1 with
        | (Normal true, s2) =>
            match loadStep opts p s2 with
            | (Normal v, s3) => (Normal v, s3)
            | (Throws e, s3) => (Normal None, logged (failedToLoad ref e) s3)
            end
        | (Normal false, s2) => (Normal None, s2)
        | (Throws e, s2) => (Normal None, logged (failedToLoad ref e) s2)
        end = (Normal v, s')
        ∧ trace s' = trace s ++ evs
        ∧ assertCalls evs = assertCalls pre
        ∧ ((ioCalls evs = [] ∧ v = None)
           ∨ (ioCalls evs = [EvStat p0] ∧ v = None)
           ∨ ioCalls evs = [EvStat p0; EvLoad p0 (optMaxBytes opts)])
        ∧ (truthyOpt (optSandboxRoot opts) = true ∨ ioCalls evs = [] ∨ p0 = target)).
    { intros p s1 pre Htr Hpre Hp.
      assert (Hwhere : truthyOpt (optSandboxRoot opts) = true
                       ∨ ioCalls (pre ++ [EvStat p]) = [] ∨ p = target)
        by (destruct Hp; auto).
      rewrite (statStep_run ref p s1 Hty).
      destruct (fsStat E p (world s1)) as [[u|e] w2]; cbv beta iota.
      - rewrite loadStep_run. cbn [world after].
        destruct (loadWebMedia E p (optMaxBytes opts) w2) as [[media|e] w3];
          [destruct (isAudioOrVideo (kind media))|];
          (eexists _, _, (pre ++ _), p; split; [reflexivity|];
           split; [unfold logged, after; cbn [trace world]; rewrite Htr;
                   rewrite <- ?app_assoc; reflexivity|];
           unfold assertCalls, ioCalls; rewrite !omap_app;
           fold (assertCalls pre) (ioCalls pre); rewrite Hpre;
           split; [by rewrite app_nil_r|]; split; [by right; right|];
           destruct Hp; auto).
      - eexists _, _, (pre ++ _), p. split; [reflexivity|].
        split; [unfold logged, after; cbn [trace world]; rewrite Htr;
                rewrite <- ?app_assoc; reflexivity|].
        unfold assertCalls, ioCalls. rewrite !omap_app.
        fold (assertCalls pre) (ioCalls pre). rewrite Hpre.
        split; [by rewrite app_nil_r|]. split; [by right; left|].
        destruct Hp; auto. }
    destruct (truthyOpt (optSandboxRoot opts)) eqn:Htruthy.
    + rewrite (sandboxStep_checked ref opts target s Hty Htruthy). cbv zeta.
      set (root := default EmptyString (optSandboxRoot opts)).
      destruct (assertSandboxPath E target root root (world s)) as [[canonical|e] w1];
        cbv beta iota.
      * destruct (Hio canonical (after (EvAssert target root root) w1 s)
                      [EvAssert target root root] eq_refl eq_refl (or_introl eq_refl))
          as (v & s' & evs & p0 & Hrun & Htr & Ha & Hc & Hw).
        exists v, s', evs, p0. split; [exact Hrun|]. split; [exact Htr|].
        split; [exact Ha|]. split; [exact Hc|]. split; [exact Hw|]. by left.
      * eexists None, _, _, EmptyString. split; [reflexivity|].
        split; [trace_delta|]. split; [reflexivity|]. split; [by left|].
        split; by left.
    + rewrite (sandboxStep_unchecked ref opts target s Htruthy).
      destruct (Hio target s [] (eq_sym (app_nil_r _)) eq_refl (or_intror eq_refl))
        as (v & s' & evs & p0 & Hrun & Htr & Ha & Hc & Hw).
      exists v, s', evs, p0. split; [exact Hrun|]. split; [exact Htr|].
      split; [exact Ha|]. split; [exact Hc|]. split; [exact Hw|]. by left.
  - rewrite (loader_url ref ws opts s Hty).
    eexists None, _, [_], EmptyString. split; [reflexivity|].
    split; [reflexivity|]. split; [reflexivity|]. split; [by left|].
    split; [right; by left|]. right. by split.
Qed.

Lemma statPaths_ioCalls evs : statPaths (ioCalls evs) = statPaths evs.
Proof.
  unfold statPaths, loadCaps, ioCalls.
  induction evs as [|ev evs IH]; [reflexivity|].
  destruct ev; cbn in *; congruence.
Qed.

Lemma loadCaps_ioCalls evs : loadCaps (ioCalls evs) = loadCaps evs.
Proof.
  unfold statPaths, loadCaps, ioCalls.
  induction evs as [|ev evs IH]; [reflexivity|].
  destruct ev; cbn in *; congruence.
Qed.

(** One call of the loader, by the numbers. *)
Lemma loader_counts ref ws opts (s : IoState E) :
  ∃ v s' evs,
    loadAudioFromRef ref ws opts s = (Normal v, s')
    ∧ trace s' = trace s ++ evs
    ∧ assertCalls evs = assertFor E ref ws opts
    ∧ Forall (eq (optMaxBytes opts)) (loadCaps evs)
    ∧ (length (omap id [v]) ≤ length (loadCaps evs))%nat
    ∧ (length (loadCaps evs) ≤ length (statPaths evs))%nat
    ∧ (length (statPaths evs) ≤ 1)%nat.
Proof.
  destruct (loader_calls ref ws opts s) as (v & s' & evs & p & Hrun & Htr & Ha & Hc & _ & _).
  exists v, s', evs. split; [exact Hrun|]. split; [exact Htr|]. split; [exact Ha|].
  rewrite <- statPaths_ioCalls, <- loadCaps_ioCalls.
  destruct Hc as [[-> ->] | [[-> ->] | ->]]; cbn.
  - split; [constructor|lia].
  - split; [constructor|lia].
  - destruct v; cbn; (split; [by repeat constructor|lia]).
Qed.

(** The loop of the orchestrator, by its events. *)
Lemma loadLoop_calls params refs :
  ∀ acc (s : IoState E),
    ∃ res s' evs,
      loadLoop params refs acc s = (Normal res, s')
      ∧ trace s' = trace s ++ evs
      ∧ assertCalls evs
        = concat ((λ ref, assertFor E ref (workspaceDir params) (paramOptions params))
                    <$> refs)
      ∧ Forall (eq (paramMaxBytes params)) (loadCaps evs)
      ∧ (loadedCount res ≤ loadedCount acc + length (loadCaps evs))%nat
      ∧ (length (loadCaps evs) ≤ length (statPaths evs))%nat
      ∧ (length (statPaths evs) ≤ length refs)%nat.
Proof.
  induction refs as [|ref rest IH]; intros acc s.
  - exists acc, s, []. cbn. rewrite app_nil_r. split; [reflexivity|]. split; [reflexivity|].
    split; [reflexivity|]. split; [constructor|lia].
  - cbn [loadLoop]. unfold bind at 1. fold (paramOptions params).
    destruct (loader_counts ref (workspaceDir params) (paramOptions params) s)
      as (v & s1 & evs1 & Hrun & Htr1 & Ha1 & Hcap1 & Hv1 & Hl1 & Hs1).
    rewrite Hrun. destruct v as [a|].
    + unfold bind at 1, debug, emit.
      destruct (IH (MkResult (audio acc ++ [a]) (S (loadedCount acc)) (skippedCount acc))
                   (logged (loadedLine ref) s1))
        as (res & s2 & evs2 & Hloop & Htr2 & Ha2 & Hcap2 & Hv2 & Hl2 & Hs2).
      unfold logged, loadedLine in Hloop. cbn [fst snd world trace loadedCount] in *.
      cbn in Hv1. rewrite Hloop. exists res, s2, (evs1 ++ [EvDebug (loadedLine ref)] ++ evs2).
      split; [reflexivity|].
      split; [rewrite Htr2; unfold logged; cbn [trace]; rewrite Htr1;
              by rewrite <- !app_assoc|].
      unfold assertCalls, loadCaps, statPaths in *. rewrite !omap_app, !length_app.
      cbn [omap list_omap app length] in *. cbn [fmap list_fmap concat].
      split; [by rewrite Ha1, Ha2|].
      split; [by apply Forall_app|]. lia.
    + destruct (IH (MkResult (audio acc) (loadedCount acc) (S (skippedCount acc))) s1)
        as (res & s2 & evs2 & Hloop & Htr2 & Ha2 & Hcap2 & Hv2 & Hl2 & Hs2).
      cbn [loadedCount] in *.
      rewrite Hloop. exists res, s2, (evs1 ++ evs2).
      split; [reflexivity|].
      split; [rewrite Htr2, Htr1; by rewrite <- !app_assoc|].
      unfold assertCalls, loadCaps, statPaths in *. rewrite !omap_app, !length_app.
      cbn [fmap list_fmap concat length].
      split; [by rewrite Ha1, Ha2|].
      split; [by apply Forall_app|]. lia.
Qed.

(** The orchestrator, by its events. *)
Lemma orchestrator_calls params (s : IoState E) :
  ∃ res s' evs,
    detectAndLoadPromptAudio params s = (Normal res, s')
    ∧ trace s' = trace s ++ evs
    ∧ assertCalls evs
      = (if modelSupportsAudio (model params)
         then concat ((λ ref, assertFor E ref (workspaceDir params) (paramOptions params))
                        <$> detected E params)
         else [])
    ∧ Forall (eq (paramMaxBytes params)) (loadCaps evs)
    ∧ (loadedCount res ≤ length (loadCaps evs))%nat
    ∧ (length (loadCaps evs) ≤ length (statPaths evs))%nat
    ∧ (length (statPaths evs) ≤ length (detected E params))%nat.
Proof.
  unfold detectAndLoadPromptAudio. fold (detected E params).
  destruct (modelSupportsAudio (model params)); cbn [negb].
  - destruct (detected E params) as [|ref rest] eqn:Hdet.
    + exists (MkResult (default [] (existingAudio params)) 0 0), s, [].
      cbn. rewrite app_nil_r. split; [reflexivity|]. split; [reflexivity|].
    split; [reflexivity|]. split; [constructor|lia].
    + cbn [length Nat.eqb]. unfold bind at 1, debug, emit.
      match goal with |- context [loadLoop ?p ?r ?a ?st] =>
        destruct (loadLoop_calls p r a st)
          as (res & s' & evs & Hloop & Htr & Ha & Hcap & Hv & Hl & Hs) end.
      cbn [fst snd world trace loadedCount] in *. rewrite Hloop.
      eexists res, s', (EvDebug _ :: evs). split; [reflexivity|].
      split; [rewrite Htr; by rewrite <- app_assoc|].
      unfold assertCalls, loadCaps, statPaths in *.
      cbn [omap list_omap length loadedCount] in *.
      split; [exact Ha|]. split; [exact Hcap|]. lia.
  - exists (MkResult [] 0 0), s, []. cbn. rewrite app_nil_r.
    split; [reflexivity|]. split; [reflexivity|].
    split; [reflexivity|]. split; [constructor|lia].
Qed.

End WithEnv.

End CallFacts.

(** ** More about the loader and the orchestrator *)

Module LoadingMore.

Import Audio Io Loader Spec Shape LoaderFacts DetectorShape CallFacts Sample.
Local Open Scope list_scope.

(** X6.  One call of the loader always returns, and its external calls
    are, in this order and no others: the sandbox assertion, made exactly
    when the reference is of kind path and the sandbox root is truthy, with
    [cwd] and [root] the sandbox root; then, unless the assertion failed,
    one existence probe, on the path the assertion returned or, without
    assertion, on the resolved target; then, exactly when the probe
    succeeded, one byte load on the path probed with [options.maxBytes].
    Content is returned exactly when the byte load returned media of kind
    audio or video.  The world is left as the last call made left it, and
    for a reference of kind url nothing is called. *)
Theorem loader_call_discipline :
  ∀ (E : Env) (ref : DetectedAudioRef) (ws : string) (opts : option LoadOptions)
    (s : IoState E),
    let target := resolveTarget E ref ws opts in
    let root := default EmptyString (optSandboxRoot opts) in
    let cap := optMaxBytes opts in
    ∃ v s' evs,
      loadAudioFromRef ref ws opts s = (Normal v, s')
      ∧ trace s' = trace s ++ evs
      ∧ let probeThenLoad (before : list Event) (p : string) (w1 : World E) :=
          match fsStat E p w1 with
          | (Throws _, w2) =>
              calls evs = before ++ [EvStat p] ∧ v = None ∧ world s' = w2
          | (Normal _, w2) =>
              calls evs = before ++ [EvStat p; EvLoad p cap]
              ∧ match loadWebMedia E p cap w2 with
                | (Normal media, w3) =>
                    v = (if isAudioOrVideo (kind media)
                         then Some (toContent media) else None)
                    ∧ world s' = w3
                | (Throws _, w3) => v = None ∧ world s' = w3
                end
          end in
        match type ref with
        | TUrl => calls evs = [] ∧ v = None ∧ world s' = world s
        | TPath =>
            if truthyOpt (optSandboxRoot opts) then
              match assertSandboxPath E target root root (world s) with
              | (Throws _, w1) =>
                  calls evs = [EvAssert target root root] ∧ v = None ∧ world s' = w1
              | (Normal canonical, w1) =>
                  probeThenLoad [EvAssert target root root] canonical w1
              end
            else probeThenLoad [] target (world s)
        end.
Proof.
  intros E ref ws opts s target root cap. subst target root cap. cbv zeta.
  assert (Hprobe : ∀ (before : list Event) p (s1 : IoState E),
    type ref = TPath → trace s1 = trace s ++ before → calls before = before →
    ∃ v s' evs,
      match statStep ref p s1 with
      | (Normal true, s2) =>
          match loadStep opts p s2 with
          | (Normal v, s3) => (Normal v, s3)
          | (Throws e, s3) => (Normal None, logged (failedToLoad ref e) s3)
          end
      | (Normal false, s2) => (Normal None, s2)
      | (Throws e, s2) => (Normal None, logged (failedToLoad ref e) s2)
      end = (Normal v, s')
      ∧ trace s' = trace s ++ evs
      ∧ match fsStat E p (world s1) with
        | (Throws _, w2) =>
            calls evs = before ++ [EvStat p] ∧ v = None ∧ world s' = w2
        | (Normal _, w2) =>
            calls evs = before ++ [EvStat p; EvLoad p (optMaxBytes opts)]
            ∧ match loadWebMedia E p (optMaxBytes opts) w2 with
              | (Normal media, w3) =>
                  v = (if isAudioOrVideo (kind media)
                       then Some (toContent media) else None)
                  ∧ world s' = w3
              | (Throws _, w3) => v = None ∧ world s' = w3
              end
        end).
  { intros before p s1 Hty Htr Hbefore.
    rewrite (statStep_run ref p s1 Hty).
    destruct (fsStat E p (world s1)) as [[u|e] w2]; cbv beta iota.
    - rewrite loadStep_run. cbn [world after].
      destruct (loadWebMedia E p (optMaxBytes opts) w2) as [[media|e] w3];
        [destruct (isAudioOrVideo (kind media))|];
        (eexists _, _, (before ++ _); split; [reflexivity|];
         split; [unfold logged, after; cbn [trace world]; rewrite Htr;
                 rewrite <- ?app_assoc; reflexivity|];
         unfold calls; rewrite omap_app; fold (calls before);
         rewrite Hbefore; by repeat split).
    - eexists _, _, (before ++ _). split; [reflexivity|].
      split; [unfold logged, after; cbn [trace world]; rewrite Htr;
              rewrite <- ?app_assoc; reflexivity|].
      unfold calls. rewrite omap_app. fold (calls before).
      rewrite Hbefore. by repeat split. }
  destruct (type ref) eqn:Hty.
  - rewrite (loader_path ref ws opts s Hty).
    destruct (truthyOpt (optSandboxRoot opts)) eqn:Htruthy.
    + rewrite (sandboxStep_checked ref opts _ s Hty Htruthy). cbv zeta.
      destruct (assertSandboxPath E (resolveTarget E ref ws opts)
                  (default EmptyString (optSandboxRoot opts))
                  (default EmptyString (optSandboxRoot opts)) (world s))
        as [[canonical|e] w1]; cbv beta iota.
      * destruct (Hprobe [EvAssert (resolveTarget E ref ws opts)
                            (default EmptyString (optSandboxRoot opts))
                            (default EmptyString (optSandboxRoot opts))]
                    canonical
                    (after (EvAssert (resolveTarget E ref ws opts)
                              (default EmptyString (optSandboxRoot opts))
                              (default EmptyString (optSandboxRoot opts))) w1 s)
                    eq_refl eq_refl eq_refl)
          as (v & s' & evs & Hrun & Htr & Hcalls).
        exists v, s', evs. by repeat split.
      * eexists None, _, _. split; [reflexivity|]. split; [trace_delta|].
        by repeat split.
    + rewrite (sandboxStep_unchecked ref opts _ s Htruthy).
      destruct (Hprobe [] (resolveTarget E ref ws opts) s
                  eq_refl (eq_sym (app_nil_r _)) eq_refl)
        as (v & s' & evs & Hrun & Htr & Hcalls).
      exists v, s', evs. by repeat split.
  - rewrite (loader_url ref ws opts s Hty).
    eexists None, _, [_]. split; [reflexivity|]. split; [reflexivity|].
    by repeat split.
Qed.

(** X7.  The working directory matters to the loader only for a relative
    path without a sandbox root: for a reference of kind url, for an
    absolute [resolved], or when a sandbox root is given (were it the empty
    string), two calls that differ in the working directory alone do the
    same. *)
Theorem workspace_dir_rarely_matters :
  ∀ (E : Env) (ref : DetectedAudioRef) (ws ws' : string) (opts : option LoadOptions)
    (s : IoState E),
    type ref = TUrl ∨ NodePath.isAbsolute (resolved ref) = true
    ∨ is_Some (optSandboxRoot opts) →
    loadAudioFromRef ref ws opts s = loadAudioFromRef ref ws' opts s.
Proof.
  intros E ref ws ws' opts s Hcase.
  assert (Htarget : resolveTarget E ref ws opts = resolveTarget E ref ws' opts).
  { unfold resolveTarget. destruct Hcase as [Hty|[Habs|[root Hroot]]].
    - by rewrite Hty.
    - rewrite Habs. by rewrite andb_false_r.
    - by rewrite Hroot. }
  unfold loadAudioFromRef, loadBody. by rewrite Htarget.
Qed.

Lemma workspace_dir_rarely_matters_witness :
  is_Some (optSandboxRoot (inSandbox "/work"))
  ∧ loadAudioFromRef (pathRef "song.mp3") "/elsewhere" (inSandbox "/work") start
    = loadAudioFromRef (pathRef "song.mp3") "/other" (inSandbox "/work") start.
Proof.
  split; [by eexists|].
  apply (workspace_dir_rarely_matters sampleEnv (pathRef "song.mp3") "/elsewhere" "/other"
           (inSandbox "/work") start).
  right. right. by eexists.
Defined.

Lemma assertFor_paths (E : Env) ws opts (l : list DetectedAudioRef) :
  Forall (λ r, type r = TPath) l →
  concat ((λ ref, assertFor E ref ws opts) <$> l)
  = if truthyOpt (optSandboxRoot opts)
    then (λ ref, (resolveTarget E ref ws opts,
                  default EmptyString (optSandboxRoot opts),
                  default EmptyString (optSandboxRoot opts))) <$> l
    else [].
Proof.
  induction 1 as [|r l Hr _ IH]; [by destruct (truthyOpt _)|].
  cbn [fmap list_fmap concat]. rewrite IH. unfold assertFor. rewrite Hr.
  cbn [isPath andb]. by destruct (truthyOpt (optSandboxRoot opts)).
Qed.

Lemma detected_all_paths (E : Env) params :
  Forall (λ r, type r = TPath) (detected E params).
Proof.
  unfold detected.
  destruct (detect_by_origin (resolveUserPath E) (fileURLToPath E) (prompt params))
    as (lm & lu & lp & -> & Hs1 & Hs2 & Fm & Fu & Fp).
  rewrite !Forall_app. repeat split.
  - eapply Forall_impl; [exact Fm|]. intros r [Hr _]. apply Hr.
  - eapply Forall_impl; [exact Fu|]. intros r [[Hr _] _]. apply Hr.
  - eapply Forall_impl; [exact Fp|]. intros r [Hr _]. apply Hr.
Qed.

(** X8.  With a qualifying model and a truthy sandbox root, one run of the
    orchestrator submits every detected reference to the sandbox
    assertion, once each and in detection order, with [cwd] and [root] the
    sandbox root and the path resolved against it; in every other case it
    makes no sandbox assertion at all.  The run always returns. *)
Theorem batch_asserts_every_reference :
  ∀ (E : Env) (params : Params) (s : IoState E),
    let root := default EmptyString (paramSandboxRoot params) in
    ∃ res s' evs,
      detectAndLoadPromptAudio params s = (Normal res, s')
      ∧ trace s' = trace s ++ evs
      ∧ assertCalls evs
        = if modelSupportsAudio (model params) && truthyOpt (paramSandboxRoot params)
          then (λ ref, (resolveTarget E ref (workspaceDir params) (paramOptions params),
                        root, root)) <$> detected E params
          else [].
Proof.
  intros E params s root.
  destruct (orchestrator_calls params s) as (res & s' & evs & Hrun & Htr & Ha & _).
  exists res, s', evs. split; [exact Hrun|]. split; [exact Htr|]. rewrite Ha.
  destruct (modelSupportsAudio (model params)); [|reflexivity].
  by rewrite (assertFor_paths E _ _ _ (detected_all_paths E params)).
Qed.

(** X9.  In one run of the orchestrator every call of the byte loader
    carries [params.maxBytes]; there are at least as many byte loads as
    loaded items, at least as many existence probes as byte loads, and at
    most one existence probe per detected reference. *)
Theorem batch_byte_cap_and_counts :
  ∀ (E : Env) (params : Params) (s : IoState E),
    ∃ res s' evs,
      detectAndLoadPromptAudio params s = (Normal res, s')
      ∧ trace s' = trace s ++ evs
      ∧ Forall (eq (paramMaxBytes params)) (loadCaps evs)
      ∧ (loadedCount res ≤ length (loadCaps evs))%nat
      ∧ (length (loadCaps evs) ≤ length (statPaths evs))%nat
      ∧ (length (statPaths evs) ≤ length (detected E params))%nat.
Proof.
  intros E params s.
  destruct (orchestrator_calls params s) as (res & s' & evs & Hrun & Htr & _ & Hrest).
  by exists res, s', evs.
Qed.

End LoadingMore.

(** ** The payload of a loaded item *)

Module PayloadFacts.

Import Audio Io Loader Spec Shape LoaderFacts Sample.
Local Open Scope list_scope.
Local Open Scope nat_scope.

Ltac divmod x k :=
  let q := fresh "q" in
  let r := fresh "r" in
  pose proof (Nat.div_mod_eq x k);
  pose proof (Nat.mod_upper_bound x k ltac:(lia));
  set (q := x / k) in *; set (r := x mod k) in *; clearbody q r.

Lemma b64_index n : n < 64 → b64Index (b64 n) = Some n ∧ Ascii.eqb (b64 n) "=" = false.
Proof.
  intros Hn.
  assert (Hall : Forall (λ n, b64Index (b64 n) = Some n ∧ Ascii.eqb (b64 n) "=" = false)
                        (seq 0 64)).
  { vm_compute. repeat constructor. }
  apply (proj1 (Forall_forall _ _) Hall). apply list_elem_of_In, in_seq. lia.
Qed.

Lemma list_ind3 {A} (P : list A → Prop) :
  P [] → (∀ a, P [a]) → (∀ a b, P [a; b]) →
  (∀ a b c l, P l → P (a :: b :: c :: l)) →
  ∀ l, P l.
Proof.
  intros H0 H1 H2 H3 l.
  assert (Hall : P l ∧ (∀ a, P (a :: l)) ∧ (∀ a b, P (a :: b :: l))).
  { induction l as [|x l (IH0 & IH1 & IH2)]; [by repeat split|].
    split; [apply IH1|]. split; [intros a; apply (IH2 a x)|].
    intros a b. by apply H3. }
  apply Hall.
Qed.

Lemma decode_encode ns :
  Forall (λ n, n < 256) ns → decodeChars (base64Chars ns) = Some ns.
Proof.
  induction ns as [|a|a b|a b c l IH] using list_ind3; intros Hns.
  - reflexivity.
  - apply Forall_cons in Hns as [Ha _]. cbv beta in *. cbn [base64Chars decodeChars].
    divmod a 4.
    destruct (b64_index q ltac:(lia)) as [-> _].
    destruct (b64_index (r * 16) ltac:(lia)) as [-> _].
    change (Ascii.eqb "=" "=") with true. cbv iota. cbn [mbind option_bind].
    divmod (r * 16) 16. f_equal. f_equal. lia.
  - apply Forall_cons in Hns as [Ha Hns]. apply Forall_cons in Hns as [Hb _].
    cbv beta in *. cbn [base64Chars decodeChars].
    divmod a 4. divmod b 16.
    destruct (b64_index q ltac:(lia)) as [-> _].
    destruct (b64_index (r * 16 + q0) ltac:(lia)) as [-> _].
    destruct (b64_index (r0 * 4) ltac:(lia)) as [-> ->].
    change (Ascii.eqb "=" "=") with true. cbv iota. cbn [mbind option_bind].
    divmod (r * 16 + q0) 16. divmod (r0 * 4) 4. f_equal. f_equal; [lia|]. f_equal. lia.
  - apply Forall_cons in Hns as [Ha Hns]. apply Forall_cons in Hns as [Hb Hns].
    apply Forall_cons in Hns as [Hc Hns].
    cbv beta in *. cbn [base64Chars decodeChars].
    divmod a 4. divmod b 16. divmod c 64.
    destruct (b64_index q ltac:(lia)) as [-> _].
    destruct (b64_index (r * 16 + q0) ltac:(lia)) as [-> _].
    destruct (b64_index (r0 * 4 + q1) ltac:(lia)) as [-> _].
    destruct (b64_index r1 ltac:(lia)) as [-> ->].
    rewrite (IH Hns). cbv iota. cbn [mbind option_bind].
    divmod (r * 16 + q0) 16. divmod (r0 * 4 + q1) 4.
    f_equal. f_equal; [lia|]. f_equal; [lia|]. f_equal. lia.
Qed.

Lemma mapM_of_to_nat (buf : list Byte.byte) :
  mapM Byte.of_nat (Byte.to_nat <$> buf) = Some buf.
Proof.
  induction buf as [|b buf IH]; [reflexivity|].
  cbn. rewrite Byte.of_to_nat. cbn. by rewrite IH.
Qed.

(** Decoding what [toBase64] makes gives the bytes back. *)
Lemma fromBase64_toBase64 (buf : list Byte.byte) :
  fromBase64 (toBase64 buf) = Some buf.
Proof.
  unfold fromBase64, toBase64. rewrite list_ascii_of_string_of_list_ascii.
  rewrite decode_encode.
  - cbn. apply mapM_of_to_nat.
  - apply Forall_fmap, Forall_forall. intros b _. unfold compose. pose proof (Byte.to_nat_bounded b). lia.
Qed.

Section WithEnv.
Context {E : Env}.

(** Content comes from media that the byte loader returned in the call. *)
Lemma loader_content_source ref ws opts (s s' : IoState E) c :
  loadAudioFromRef ref ws opts s = (Normal (Some c), s') →
  ∃ p w media,
    loadWebMedia E p (optMaxBytes opts) w = (Normal media, world s')
    ∧ isAudioOrVideo (kind media) = true
    ∧ c = toContent media.
Proof.
  destruct (type ref) eqn:Hty.
  - rewrite (loader_path ref ws opts s Hty).
    destruct (sandboxStep ref opts _ s) as [[[p|]|e] s1]; [|discriminate..].
    rewrite (statStep_run ref p s1 Hty).
    destruct (fsStat E p (world s1)) as [[u|e] w2]; cbv beta iota; [|discriminate].
    rewrite loadStep_run. cbn [world after].
    destruct (loadWebMedia E p (optMaxBytes opts) w2) as [[media|e] w3] eqn:Hld;
      [|discriminate].
    destruct (isAudioOrVideo (kind media)) eqn:Hk; [|discriminate].
    intros [= <- <-]. exists p, w2, media. by repeat split.
  - by rewrite (loader_url ref ws opts s Hty).
Qed.

End WithEnv.

(** X10.  When the loader returns content, the byte loader returned media
    of kind audio or video in that call, the [data] of the content decodes
    (base64) to exactly the bytes of that media, and [mimeType] is the
    content type of the media, or "audio/mp3" when it has none. *)
Theorem loaded_content_round_trip :
  ∀ (E : Env) (ref : DetectedAudioRef) (ws : string) (opts : option LoadOptions)
    (s s' : IoState E) (c : AudioContent),
    loadAudioFromRef ref ws opts s = (Normal (Some c), s') →
    ∃ p w media,
      loadWebMedia E p (optMaxBytes opts) w = (Normal media, world s')
      ∧ isAudioOrVideo (kind media) = true
      ∧ fromBase64 (data c) = Some (buffer media)
      ∧ mimeType c = default "audio/mp3"%string (contentType media).
Proof.
  intros E ref ws opts s s' c Hrun.
  destruct (loader_content_source ref ws opts s s' c Hrun) as (p & w & media & Hld & Hk & ->).
  exists p, w, media. split; [exact Hld|]. split; [exact Hk|].
  split; [apply fromBase64_toBase64 | reflexivity].
Qed.

Lemma loaded_content_round_trip_witness :
  loadAudioFromRef (pathRef "/work/clip.mp4") "/work" (inSandbox "/work") start
  = (Normal (Some (MkAudio "TWE=" "audio/mp3")),
     MkIo (sampleFs : World sampleEnv)
       [EvAssert "/work/clip.mp4" "/work" "/work"; EvStat "/work/clip.mp4";
        EvLoad "/work/clip.mp4" None])
  ∧ ∃ p w media,
      loadWebMedia sampleEnv p None w = (Normal media, sampleFs)
      ∧ isAudioOrVideo (kind media) = true
      ∧ fromBase64 "TWE=" = Some (buffer media)
      ∧ "audio/mp3"%string = default "audio/mp3"%string (contentType media).
Proof.
  split; [reflexivity|].
  exact (loaded_content_round_trip sampleEnv (pathRef "/work/clip.mp4") "/work"
           (inSandbox "/work") start _ _ eq_refl).
Defined.

End PayloadFacts.
